(** * Classifier-chain tree-search inference (cc_rl.classifier_chain)

    A shallow embedding of [BaseInferer], [EpsilonApproximationInferer] and
    [ClassifierChain.predict].

    Modelling conventions.
    - numpy float arrays are lists of exact rationals ([Q]); boolean arrays
      are lists of [bool]; a two-dimensional array is a list of rows.
    - a fitted estimator is its row-wise [predict_proba]: it maps one
      augmented feature row to the pair of class probabilities; the batch
      call maps it over the rows.
    - the private attributes [__best_pred], [__best_p], [__n_nodes] of the
      inferer are a record threaded through the recursion; the array
      [cur_pred], which the recursion mutates in place, is threaded too.
    - raising is a value of the [Err] monad. *)

From Stdlib Require Import List Bool Arith Lia String QArith.
Import ListNotations.
Local Open Scope Q_scope.

Set Implicit Arguments.

(** ** Errors *)

Inductive exn : Type :=
| AssertionError
| TypeError
| KeyError
| ValueError
| ZeroDivisionError
| NotImplementedError
| Exception (msg : string).

Inductive Err (A : Type) : Type :=
| Ok (a : A)
| Raise (e : exn).
Arguments Ok {A} a.
Arguments Raise {A} e.

Definition bind {A B} (m : Err A) (k : A -> Err B) : Err B :=
  match m with
  | Ok a => k a
  | Raise e => Raise e
  end.

Notation "x <- m ;; k" := (bind m (fun x => k))
  (at level 61, m at next level, right associativity).
Notation "'assert!' c ;; k" := (if c then k else Raise AssertionError)
  (at level 61, c at next level, right associativity).

(** ** numpy array primitives *)

(** [l[mask]]: boolean-mask indexing. *)
Fixpoint select {A} (mask : list bool) (l : list A) : list A :=
  match mask, l with
  | m :: mask', a :: l' => if m then a :: select mask' l' else select mask' l'
  | _, _ => []
  end.

(** [l[mask] = vals]: boolean-mask assignment; [vals] has one entry per
    true position of [mask]. *)
Fixpoint assign {A} (mask : list bool) (vals : list A) (l : list A) : list A :=
  match mask, l with
  | m :: mask', a :: l' =>
      if m then
        match vals with
        | v :: vals' => v :: assign mask' vals' l'
        | [] => a :: l'
        end
      else a :: assign mask' vals l'
  | _, _ => l
  end.

(** [row[i] = k] *)
Fixpoint set_nth {A} (i : nat) (k : A) (row : list A) : list A :=
  match row, i with
  | [], _ => []
  | _ :: row', O => k :: row'
  | a :: row', S i' => a :: set_nth i' k row'
  end.

(** [m[mask, i] = ks] *)
Fixpoint assign_col {A} (mask : list bool) (i : nat) (ks : list A)
    (m : list (list A)) : list (list A) :=
  match mask, m with
  | b :: mask', r :: m' =>
      if b then
        match ks with
        | k :: ks' => set_nth i k r :: assign_col mask' i ks' m'
        | [] => r :: m'
        end
      else r :: assign_col mask' i ks m'
  | _, _ => m
  end.

(** [np.count_nonzero(mask)] *)
Definition count_nonzero (mask : list bool) : nat :=
  List.length (filter (fun b => b) mask).

Fixpoint map2 {A B C} (f : A -> B -> C) (l : list A) (l' : list B) : list C :=
  match l, l' with
  | a :: t, b :: t' => f a b :: map2 f t t'
  | _, _ => []
  end.

Definition Q_of_bool (b : bool) : Q := if b then 1 else 0.

(** [np.hstack((x, pred[:, :i]))] *)
Definition hstack_prefix (x : list (list Q)) (pred : list (list bool)) (i : nat)
  : list (list Q) :=
  map2 (fun xr pr => xr ++ map Q_of_bool (firstn i pr)) x pred.

(** [a > b] and [a >= b] on floats *)
Definition Qgt_bool (a b : Q) : bool := negb (Qle_bool a b).
Definition Qge_bool (a b : Q) : bool := Qle_bool b a.

(** Row-wise [np.max], [np.min], [np.argmax], [np.argmin] over the two class
    probabilities; on a tie both [argmax] and [argmin] return index 0. *)
Definition np_max (p : Q * Q) : Q := if Qge_bool (fst p) (snd p) then fst p else snd p.
Definition np_min (p : Q * Q) : Q := if Qle_bool (fst p) (snd p) then fst p else snd p.
Definition np_argmax (p : Q * Q) : nat := if Qge_bool (fst p) (snd p) then 0%nat else 1%nat.
Definition np_argmin (p : Q * Q) : nat := if Qle_bool (fst p) (snd p) then 0%nat else 1%nat.

(** [k.astype(bool)] and [b.astype(int)] *)
Definition astype_bool (k : nat) : bool := negb (Nat.eqb k 0).
Definition astype_int (b : bool) : nat := if b then 1%nat else 0%nat.

(** [np.take_along_axis(proba, idx.reshape(-1, 1), axis=1).flatten()] *)
Definition take (p : Q * Q) (k : nat) : Q :=
  match k with O => fst p | _ => snd p end.

Definition Qsum (l : list Q) : Q := fold_left Qplus l 0.

(** [a.mean()]; the mean of an empty array, which numpy gives as nan, is
    not used: [_infer] raises on an empty batch before the reward is
    computed. *)
Definition mean (l : list Q) : Q := Qsum l / inject_Z (Z.of_nat (List.length l)).

(** ** The fitted chain *)

Definition Estimator : Type := list Q -> Q * Q.

Definition predict_proba (e : Estimator) (X : list (list Q)) : list (Q * Q) :=
  map e X.

Record Chain : Type := {
  estimators_ : list Estimator;
  order_ : list nat
}.

(** ** BaseInferer *)

Record BaseInferer : Type := {
  _cc : Chain;
  loss : string
}.

Definition is_loss (l : string) : bool :=
  String.eqb l "exact_match" || String.eqb l "hamming".

(** [BaseInferer.__init__] *)
Definition BaseInferer_init (c : Chain) (l : string) : Err BaseInferer :=
  assert! is_loss l ;;
  Ok {| _cc := c; loss := l |}.

(** [BaseInferer._new_score], on one entry and on arrays *)
Definition new_score1 (l : string) (past_score new_proba : Q) : Q :=
  if String.eqb l "exact_match" then past_score * new_proba
  else past_score + new_proba.

Definition _new_score (l : string) (past_score new_proba : list Q) : list Q :=
  map2 (new_score1 l) past_score new_proba.

(** [BaseInferer.__calculate_reward]: the loop over the estimators, with
    [i] the index of the next one. *)
Fixpoint reward_loop (l : string) (ests : list Estimator) (i : nat)
    (x : list (list Q)) (pred : list (list bool)) (reward : list Q) : list Q :=
  match ests with
  | [] => reward
  | e :: ests' =>
      let x_aug := hstack_prefix x pred i in
      let proba := predict_proba e x_aug in
      let chosen :=
        map2 take proba (map (fun r => astype_int (nth i r false)) pred) in
      reward_loop l ests' (S i) x pred (_new_score l reward chosen)
  end.

Definition __calculate_reward (self : BaseInferer) (x : list (list Q))
    (pred : list (list bool)) : Q :=
  let reward :=
    if String.eqb (loss self) "exact_match"
    then repeat 1 (List.length x)
    else repeat 0 (List.length x) in
  mean (reward_loop (loss self) (estimators_ (_cc self)) 0 x pred reward).

(** [BaseInferer.__fix_order]; the cells of [np.empty_like] that are never
    written are modelled as 0. *)
Definition inv_order (order : list nat) : list nat :=
  fold_left (fun inv jo => set_nth (snd jo) (fst jo) inv)
    (combine (seq 0 (List.length order)) order)
    (repeat 0%nat (List.length order)).

Definition __fix_order (self : BaseInferer) (pred : list (list bool))
  : list (list bool) :=
  map (fun row => map (fun j => nth j row false) (inv_order (order_ (_cc self))))
    pred.

(** [BaseInferer.infer] dispatches on the virtual [_infer] of the child. *)
Class Inferer (T : Type) : Type := {
  base_of : T -> BaseInferer;
  _infer : T -> list (list Q) -> Err (list (list bool) * Q)
}.

Definition infer {T} `{Inferer T} (self : T) (x : list (list Q))
  : Err (list (list bool) * Q * Q) :=
  r <- _infer self x ;;
  let '(pred, n_nodes) := r in
  let reward := __calculate_reward (base_of self) x pred in
  let pred := __fix_order (base_of self) pred in
  Ok (pred, n_nodes, reward).

(** [BaseInferer._infer] itself is virtual. *)
#[export] Instance BaseInferer_Inferer : Inferer BaseInferer :=
  {| base_of := fun self => self;
     _infer := fun _ _ => Raise NotImplementedError |}.

(** ** EpsilonApproximationInferer *)

(** The private attributes written by [_infer] and [__dfs]. *)
Record Attrs : Type := {
  best_pred : list (list bool);
  best_p : list Q;
  n_nodes : nat
}.

Record EpsilonApproximationInferer : Type := {
  base : BaseInferer;
  cc : Chain;
  epsilon : Q;
  attrs : Attrs
}.

Definition no_attrs : Attrs := {| best_pred := []; best_p := []; n_nodes := 0 |}.

(** [EpsilonApproximationInferer.__init__] *)
Definition EpsilonApproximationInferer_init (classifier_chain : Chain)
    (l : string) (eps : Q) : Err EpsilonApproximationInferer :=
  b <- BaseInferer_init classifier_chain l ;;
  assert! (Qle_bool 0 eps && Qle_bool eps (1 # 2)) ;;
  Ok {| base := b; cc := classifier_chain; epsilon := eps; attrs := no_attrs |}.

(** [EpsilonApproximationInferer.__dfs].  [ests] is [self.cc.estimators_[i:]],
    so that [i == len(self.cc.estimators_)] is [ests = []].  The result is the
    array [cur_pred] as the call leaves it, and the attributes. *)
Fixpoint __dfs (l : string) (eps : Q) (ests : list Estimator) (i : nat)
    (x : list (list Q)) (cur_pred : list (list bool)) (cur_p : list Q)
    (mask : list bool) (st : Attrs) : list (list bool) * Attrs :=
  match ests with
  | [] =>
      let change := assign mask (map2 Qgt_bool cur_p (select mask (best_p st))) mask in
      (cur_pred,
       {| best_pred := assign change (select change cur_pred) (best_pred st);
          best_p := assign change (select (select mask change) cur_p) (best_p st);
          n_nodes := n_nodes st |})
  | e :: ests' =>
      let x_aug := hstack_prefix (select mask x) (select mask cur_pred) i in
      let proba := predict_proba e x_aug in
      let st := {| best_pred := best_pred st; best_p := best_p st;
                   n_nodes := n_nodes st + count_nonzero mask |} in
      (* the node with highest proba is always visited *)
      let proba_max := _new_score l cur_p (map np_max proba) in
      let k := map np_argmax proba in
      let cur_pred := assign_col mask i (map astype_bool k) cur_pred in
      let '(cur_pred, st) := __dfs l eps ests' (S i) x cur_pred proba_max mask st in
      (* the node with lowest proba has to pass a condition *)
      let proba_min := _new_score l cur_p (map np_min proba) in
      let condition := map (fun p => Qge_bool p eps) proba_min in
      let new_mask := assign mask condition mask in
      if (0 <? count_nonzero new_mask)%nat then
        let k := map np_argmin (select condition proba) in
        let cur_pred := assign_col new_mask i (map astype_bool k) cur_pred in
        let proba_min := select condition proba_min in
        __dfs l eps ests' (S i) x cur_pred proba_min new_mask st
      else (cur_pred, st)
  end.

Definition Q_of_nat (n : nat) : Q := inject_Z (Z.of_nat n).

(** The first half of [EpsilonApproximationInferer._infer]: the attributes
    are reset and the search is run from the root.  The attributes left by an
    earlier call ([attrs self]) are overwritten, not read. *)
Definition Eps_search (self : EpsilonApproximationInferer) (x : list (list Q))
  : Attrs :=
  let n := List.length x in
  let cur_pred := repeat (repeat false (List.length (estimators_ (cc self)))) n in
  let cur_p := repeat 1 n in
  let mask := repeat true n in
  let st := {| best_pred := cur_pred; best_p := repeat 0 n; n_nodes := 0 |} in
  snd (__dfs (loss (base self)) (epsilon self) (estimators_ (cc self)) 0
             x cur_pred cur_p mask st).

(** [EpsilonApproximationInferer._infer]; [__n_nodes / len(x)] divides two
    Python integers. *)
Definition Eps_infer (self : EpsilonApproximationInferer) (x : list (list Q))
  : Err (list (list bool) * Q) :=
  let st := Eps_search self x in
  if Nat.eqb (List.length x) 0 then Raise ZeroDivisionError
  else Ok (best_pred st, Q_of_nat (n_nodes st) / Q_of_nat (List.length x)).

#[export] Instance EpsilonApproximationInferer_Inferer
  : Inferer EpsilonApproximationInferer :=
  {| base_of := base; _infer := Eps_infer |}.

(** ** ClassifierChain.predict *)

(** Python values that cross the dynamically typed boundary of [predict]. *)
#[warnings="-register-all"] Inductive pyval : Type :=
| VStr (s : string)
| VNum (q : Q)
| VInt (n : nat)
| VBool (b : bool)
| VChain (c : Chain)
| VPred (m : list (list bool))
| VTuple (vs : list pyval).

(** [kwargs[k]] *)
Fixpoint getitem (kwargs : list (string * pyval)) (k : string) : Err pyval :=
  match kwargs with
  | [] => Raise KeyError
  | (k', v) :: rest => if String.eqb k k' then Ok v else getitem rest k
  end.

(** [a, b = v]; only tuples reach this statement. *)
Definition unpack2 (v : pyval) : Err (pyval * pyval) :=
  match v with
  | VTuple [a; b] => Ok (a, b)
  | VTuple _ => Raise ValueError
  | _ => Raise TypeError
  end.

(** The tuple returned by the [return] statement of [BaseInferer.infer]. *)
Definition infer_py {T} `{Inferer T} (self : T) (x : list (list Q)) : Err pyval :=
  r <- infer self x ;;
  let '(pred, n_nodes, reward) := r in
  Ok (VTuple [VPred pred; VNum n_nodes; VNum reward]).

(** The call [EpsilonApproximationInferer(...)]: the positional arguments
    are bound to [(classifier_chain, loss, epsilon)]; any other number of
    arguments is a [TypeError].  A loss that is not a string fails the
    assertion of [BaseInferer.__init__]; an epsilon that is not a number
    cannot be compared with the bounds. *)
Definition EpsilonApproximationInferer_new (args : list pyval)
  : Err EpsilonApproximationInferer :=
  match args with
  | [VChain c; l; e] =>
      match l with
      | VStr l =>
          match e with
          | VNum e => EpsilonApproximationInferer_init c l e
          | VInt e => EpsilonApproximationInferer_init c l (Q_of_nat e)
          | VBool e => EpsilonApproximationInferer_init c l (Q_of_bool e)
          | _ => b <- BaseInferer_init c l ;; Raise TypeError
          end
      | _ => Raise AssertionError
      end
  | _ => Raise TypeError
  end.

(** An inferer object of some class deriving from [BaseInferer]. *)
Record AnyInferer : Type := {
  carrier : Type;
  carrier_Inferer : Inferer carrier;
  obj : carrier
}.

Definition any_inferer {T} `{I : Inferer T} (o : T) : AnyInferer :=
  {| carrier := T; carrier_Inferer := I; obj := o |}.

Section Predict.
(** sklearn's greedy [ClassifierChain.predict] is external to the
    repository. *)
Variable sk_predict : Chain -> list (list Q) -> list (list bool).
(** The constructors of the inferer classes that [ClassifierChain.py]
    imports from modules that are not part of the sources; they derive from
    [BaseInferer] and are called with positional arguments. *)
Variable ExhaustiveSearchInferer : list pyval -> Err AnyInferer.
Variable BeamSearchInferer : list pyval -> Err AnyInferer.
Variable MonteCarloInferer : list pyval -> Err AnyInferer.

Definition make_inferer (self_cc : Chain) (inference_method : string)
    (kwargs : list (string * pyval)) : Err AnyInferer :=
  if String.eqb inference_method "exhaustive_search" then
    l <- getitem kwargs "loss" ;;
    ExhaustiveSearchInferer [VChain self_cc; l]
  else if String.eqb inference_method "epsilon_approximation" then
    e <- getitem kwargs "epsilon" ;;
    i <- EpsilonApproximationInferer_new [VChain self_cc; e] ;;
    Ok (any_inferer i)
  else if String.eqb inference_method "beam_search" then
    l <- getitem kwargs "loss" ;;
    b <- getitem kwargs "b" ;;
    BeamSearchInferer [VChain self_cc; l; b]
  else if String.eqb inference_method "monte_carlo" then
    l <- getitem kwargs "loss" ;;
    q <- getitem kwargs "q" ;;
    MonteCarloInferer [VChain self_cc; l; q; VBool false]
  else if String.eqb inference_method "efficient_monte_carlo" then
    l <- getitem kwargs "loss" ;;
    q <- getitem kwargs "q" ;;
    MonteCarloInferer [VChain self_cc; l; q; VBool true]
  else Raise (Exception "This inference method does not exist.").

(** [ClassifierChain.predict]; [self_cc] is [self.cc] and [test_x] is
    [ds.test_x]. *)
Definition predict (self_cc : Chain) (test_x : list (list Q))
    (inference_method : string) (return_num_nodes : bool)
    (kwargs : list (string * pyval)) : Err pyval :=
  r <- (if String.eqb inference_method "greedy" then
          Ok (VPred (sk_predict self_cc test_x),
              VInt (List.length (estimators_ self_cc)))
        else
          inferer <- make_inferer self_cc inference_method kwargs ;;
          t <- @infer_py _ (carrier_Inferer inferer) (obj inferer) test_x ;;
          unpack2 t) ;;
  let '(pred, num_nodes) := r in
  if return_num_nodes then Ok (VTuple [pred; num_nodes]) else Ok pred.
End Predict.

(** ** The search on one row

    The vectorised recursion treats the rows of the batch independently of one
    another.  [dfs_row] is [__dfs] on a single active row: [cp] is the row of
    [cur_pred], [p] its entry of [cur_p], [b] its entries of [__best_pred]
    and [__best_p]; the result carries the number of estimator calls the
    row takes part in. *)

Definition leaf_update (cp : list bool) (p : Q) (b : list bool * Q)
  : list bool * Q :=
  if Qgt_bool p (snd b) then (cp, p) else b.

Fixpoint dfs_row (l : string) (eps : Q) (ests : list Estimator) (i : nat)
    (xr : list Q) (cp : list bool) (p : Q) (b : list bool * Q)
  : list bool * (list bool * Q) * nat :=
  match ests with
  | [] => (cp, leaf_update cp p b, 0%nat)
  | e :: ests' =>
      let pr := e (xr ++ map Q_of_bool (firstn i cp)) in
      let cp1 := set_nth i (astype_bool (np_argmax pr)) cp in
      let '(cp2, b2, c2) :=
        dfs_row l eps ests' (S i) xr cp1 (new_score1 l p (np_max pr)) b in
      let p_min := new_score1 l p (np_min pr) in
      if Qge_bool p_min eps then
        let cp3 := set_nth i (astype_bool (np_argmin pr)) cp2 in
        let '(cp4, b4, c4) := dfs_row l eps ests' (S i) xr cp3 p_min b2 in
        (cp4, b4, (c4 + (c2 + 1))%nat)
      else (cp2, b2, (c2 + 1)%nat)
  end.

(** The same search with the path as a value: the complete paths reached
    from the node [path], in the order the recursion reaches them, each with
    its accumulated score; and the number of nodes expanded. *)
Fixpoint leaves (l : string) (eps : Q) (ests : list Estimator) (xr : list Q)
    (path : list bool) (p : Q) : list (list bool * Q) :=
  match ests with
  | [] => [(path, p)]
  | e :: ests' =>
      let pr := e (xr ++ map Q_of_bool path) in
      let p_min := new_score1 l p (np_min pr) in
      leaves l eps ests' xr (path ++ [astype_bool (np_argmax pr)])
             (new_score1 l p (np_max pr))
      ++ (if Qge_bool p_min eps
          then leaves l eps ests' xr (path ++ [astype_bool (np_argmin pr)]) p_min
          else [])
  end.

Fixpoint visited (l : string) (eps : Q) (ests : list Estimator) (xr : list Q)
    (path : list bool) (p : Q) : nat :=
  match ests with
  | [] => 0
  | e :: ests' =>
      let pr := e (xr ++ map Q_of_bool path) in
      let p_min := new_score1 l p (np_min pr) in
      (if Qge_bool p_min eps
       then visited l eps ests' xr (path ++ [astype_bool (np_argmin pr)]) p_min
       else 0)
      + (visited l eps ests' xr (path ++ [astype_bool (np_argmax pr)])
           (new_score1 l p (np_max pr)) + 1)
  end%nat.

(** The best-path bookkeeping of the leaf case, run over a list of leaves. *)
Definition best_of (ls : list (list bool * Q)) (b : list bool * Q)
  : list bool * Q :=
  fold_left (fun b lf => leaf_update (fst lf) (snd lf) b) ls b.

(** The leaves, the best path and the node count of one row of a batch given
    to [_infer]. *)
Definition row_leaves (self : EpsilonApproximationInferer) (xr : list Q)
  : list (list bool * Q) :=
  leaves (loss (base self)) (epsilon self) (estimators_ (cc self)) xr [] 1.

Definition row_best (self : EpsilonApproximationInferer) (xr : list Q)
  : list bool * Q :=
  best_of (row_leaves self xr)
    (repeat false (List.length (estimators_ (cc self))), 0).

Definition row_visited (self : EpsilonApproximationInferer) (xr : list Q) : nat :=
  visited (loss (base self)) (epsilon self) (estimators_ (cc self)) xr [] 1.

Definition sum_nat (l : list nat) : nat := fold_right Nat.add 0%nat l.

(** ** Bookkeeping used to relate the batch to its rows *)

(** Adding [k] to the node counter of a result of [__dfs]. *)
Definition add_nodes (k : nat) (r : list (list bool) * Attrs)
  : list (list bool) * Attrs :=
  (fst r, {| best_pred := best_pred (snd r); best_p := best_p (snd r);
             n_nodes := n_nodes (snd r) + k |}).

(** Putting the result of one row in front of the result of the others. *)
Definition cons_row (cp : list bool) (b : list bool * Q) (c : nat)
    (r : list (list bool) * Attrs) : list (list bool) * Attrs :=
  (cp :: fst r,
   {| best_pred := fst b :: best_pred (snd r);
      best_p := snd b :: best_p (snd r);
      n_nodes := n_nodes (snd r) + c |}).

(** The score that the replay of [__calculate_reward] gives to one complete
    path of one row. *)
Definition path_score (self : BaseInferer) (xr : list Q) (path : list bool) : Q :=
  __calculate_reward self [xr] [path].

(** [__calculate_reward] on one row: the score of the complete path [path],
    replayed from estimator [i] on with the running score [r]. *)
Fixpoint replay_row (l : string) (ests : list Estimator) (i : nat)
    (xr : list Q) (path : list bool) (r : Q) : Q :=
  match ests with
  | [] => r
  | e :: ests' =>
      let pr := e (xr ++ map Q_of_bool (firstn i path)) in
      replay_row l ests' (S i) xr path
        (new_score1 l r (take pr (astype_int (nth i path false))))
  end.

(** Row-wise combination of three arrays. *)
Fixpoint rows3 {A B C D} (f : A -> B -> C -> D)
    (x : list A) (y : list B) (z : list C) : list D :=
  match x, y, z with
  | a :: x', b :: y', c :: z' => f a b c :: rows3 f x' y' z'
  | _, _, _ => []
  end.

(** The path that takes the arg-max branch at every node. *)
Fixpoint greedy_path (ests : list Estimator) (xr : list Q) (path : list bool)
  : list bool :=
  match ests with
  | [] => path
  | e :: ests' =>
      greedy_path ests' xr
        (path ++ [astype_bool (np_argmax (e (xr ++ map Q_of_bool path)))])
  end.

(** All label vectors of a given length. *)
Fixpoint all_paths (d : nat) : list (list bool) :=
  match d with
  | O => [[]]
  | S d' => map (cons false) (all_paths d') ++ map (cons true) (all_paths d')
  end.

(** Projections of results. *)
Definition prediction_of {A B} (r : Err (A * B)) : option A :=
  match r with Ok (a, _) => Some a | Raise _ => None end.

Definition nodes_of {A B} (r : Err (A * B)) : option B :=
  match r with Ok (_, b) => Some b | Raise _ => None end.

Definition is_raise {A} (r : Err A) : bool :=
  match r with Ok _ => false | Raise _ => true end.

(** A node whose two probabilities are non-negative and differ. *)
Definition proper_node (pr : Q * Q) : Prop :=
  0 <= fst pr /\ 0 <= snd pr /\ ~ fst pr == snd pr.

(** Two estimator families that answer every query alike. *)
Definition same_answers (ests ests' : list Estimator) : Prop :=
  Forall2 (fun e e' : Estimator => forall r, e r = e' r) ests ests'.

(** ** The depth-3 scenario

    Three estimators with fixed answers; the labels decided so far are the
    last entries of the augmented row, whatever the features are. *)

Definition last_labels (k : nat) (r : list Q) : list Q :=
  skipn (List.length r - k) r.

Definition node0 : Estimator := fun _ => (7 # 10, 3 # 10).

Definition node1 : Estimator := fun r =>
  match last_labels 1 r with
  | [a] => if Qeq_bool a 0 then (6 # 10, 4 # 10) else (2 # 10, 8 # 10)
  | _ => (0, 0)
  end.

Definition node2 : Estimator := fun r =>
  match last_labels 2 r with
  | [a; b] =>
      if Qeq_bool a 0
      then (if Qeq_bool b 0 then (9 # 10, 1 # 10) else (5 # 10, 5 # 10))
      else (if Qeq_bool b 0 then (4 # 10, 6 # 10) else (3 # 10, 7 # 10))
  | _ => (0, 0)
  end.

Definition scenario_chain : Chain :=
  {| estimators_ := [node0; node1; node2]; order_ := [0; 1; 2]%nat |}.

(** One row with two features. *)
Definition scenario_x : list (list Q) := [[1 # 2; 3]].

Definition scenario (l : string) (eps : Q) : EpsilonApproximationInferer :=
  {| base := {| _cc := scenario_chain; loss := l |};
     cc := scenario_chain; epsilon := eps; attrs := no_attrs |}.

(** A depth-2 chain whose first two nodes are ties. *)
Definition tie0 : Estimator := fun _ => (1 # 2, 1 # 2).

Definition tie1 : Estimator := fun r =>
  match last_labels 1 r with
  | [a] => if Qeq_bool a 0 then (1 # 2, 1 # 2) else (1 # 10, 9 # 10)
  | _ => (0, 0)
  end.

Definition tie_chain : Chain :=
  {| estimators_ := [tie0; tie1]; order_ := [0; 1]%nat |}.

Definition tie_inferer : EpsilonApproximationInferer :=
  {| base := {| _cc := tie_chain; loss := "exact_match" |};
     cc := tie_chain; epsilon := 0; attrs := no_attrs |}.

(** ** Further code: metrics and conditions on the inputs *)

(** [order_] is a permutation of [0 .. len(order_) - 1]. *)
Definition is_order (order : list nat) : Prop :=
  NoDup order /\ Forall (fun o => (o < List.length order)%nat) order.

(** The two answers of a node lie in [0, 1]. *)
Definition unit_node (pr : Q * Q) : Prop :=
  (0 <= fst pr /\ fst pr <= 1) /\ (0 <= snd pr /\ snd pr <= 1).

(** The two answers of a node are the probabilities of the two classes. *)
Definition prob_node (pr : Q * Q) : Prop :=
  0 <= fst pr /\ 0 <= snd pr /\ fst pr + snd pr == 1.

(** [set(np.where(row)[0])]: the indices of the entries that are set. *)
Definition where_true (row : list bool) : list nat :=
  map fst (filter snd (combine (seq 0 (List.length row)) row)).

(** [a.intersection(b)] and [a.union(b)] on sets of indices. *)
Definition set_inter (a b : list nat) : list nat :=
  filter (fun i => existsb (Nat.eqb i) b) a.

Definition set_union (a b : list nat) : list nat :=
  a ++ filter (fun i => negb (existsb (Nat.eqb i) a)) b.

(** The body of the loop of [ClassifierChain.accuracy] for one row. *)
Definition accuracy_row (y_test_i y_pred_i : list bool) : Q :=
  let set_true := where_true y_test_i in
  let set_pred := where_true y_pred_i in
  if Nat.eqb (List.length set_true) 0 && Nat.eqb (List.length set_pred) 0
  then 1
  else Q_of_nat (List.length (set_inter set_true set_pred))
       / Q_of_nat (List.length (set_union set_true set_pred)).

(** The loop [for i in range(y_test.shape[0])], from row [i] on; indexing
    [y_pred] past its last row is an IndexError. *)
Fixpoint acc_list (y_test y_pred : list (list bool)) (i : nat) : Err (list Q) :=
  match y_test with
  | [] => Ok []
  | t :: rest =>
      match nth_error y_pred i with
      | None => Raise (Exception "IndexError")
      | Some p =>
          l <- acc_list rest y_pred (S i) ;;
          Ok (accuracy_row t p :: l)
      end
  end.

Section Metrics.
Variable sk_predict : Chain -> list (list Q) -> list (list bool).
Variable ExhaustiveSearchInferer : list pyval -> Err AnyInferer.
Variable BeamSearchInferer : list pyval -> Err AnyInferer.
Variable MonteCarloInferer : list pyval -> Err AnyInferer.

(** [ClassifierChain.accuracy]; [np.mean] of an empty list, which numpy
    gives as nan, is outside the model. *)
Definition accuracy (self_cc : Chain) (test_x : list (list Q))
    (test_y : list (list bool)) : Err Q :=
  r <- predict sk_predict ExhaustiveSearchInferer BeamSearchInferer
         MonteCarloInferer self_cc test_x "greedy" false [] ;;
  match r with
  | VPred y_pred =>
      l <- acc_list test_y y_pred 0 ;;
      Ok (mean l)
  | _ => Raise TypeError
  end.
End Metrics.

(** The two answers of a node are non-negative. *)
Definition nonneg_node (pr : Q * Q) : Prop := 0 <= fst pr /\ 0 <= snd pr.

(** Scores at or above [lo] stay there when a non-negative answer is
    combined with them. *)
Definition keeps_above (l : string) (lo : Q) : Prop :=
  forall p q, lo <= p -> 0 <= q -> lo <= new_score1 l p q.

(** The writes of [inv_order[order_] = arange(...)], one index at a time. *)
Definition write_all (ps : list (nat * nat)) (inv : list nat) : list nat :=
  fold_left (fun inv jo => set_nth (snd jo) (fst jo) inv) ps inv.

(** A depth-2 chain whose estimators answer with the probabilities of the
    two classes on every row, never with a tie; its second label comes first
    in the chain. *)
Definition coin0 : Estimator := fun _ => (3 # 4, 1 # 4).

Definition coin1 : Estimator := fun r =>
  if Qle_bool (Qsum r) 1 then (1 # 5, 4 # 5) else (3 # 5, 2 # 5).

Definition fair_chain : Chain :=
  {| estimators_ := [coin0; coin1]; order_ := [1; 0]%nat |}.

Definition fair (l : string) (eps : Q) : EpsilonApproximationInferer :=
  {| base := {| _cc := fair_chain; loss := l |};
     cc := fair_chain; epsilon := eps; attrs := no_attrs |}.

Definition fair_x : list (list Q) := [[1 # 2]; [3]].

(** * Proofs *)

Unset Implicit Arguments.

(** ** Masked arrays *)

Section MaskLemmas.
Context {A B C : Type}.

Lemma map2_nil_r (f : A -> B -> C) (l : list A) : map2 f l [] = [].
Proof. destruct l; reflexivity. Qed.

Lemma select_none (mask : list bool) (l : list A) :
  count_nonzero mask = 0%nat -> select mask l = [].
Proof.
  revert l; induction mask as [|m mask IH]; intros l H; [reflexivity|].
  destruct l as [|a l]; [reflexivity|].
  destruct m; [discriminate|]. cbn. apply IH, H.
Qed.

Lemma assign_none (mask : list bool) (vals l : list A) :
  count_nonzero mask = 0%nat -> assign mask vals l = l.
Proof.
  revert l; induction mask as [|m mask IH]; intros l H; [reflexivity|].
  destruct l as [|a l]; [reflexivity|].
  destruct m; [discriminate|]. cbn. f_equal. apply IH, H.
Qed.

Lemma assign_col_none (mask : list bool) (i : nat) (ks : list A) (m : list (list A)) :
  count_nonzero mask = 0%nat -> assign_col mask i ks m = m.
Proof.
  revert m; induction mask as [|b mask IH]; intros m H; [reflexivity|].
  destruct m as [|r m]; [reflexivity|].
  destruct b; [discriminate|]. cbn. f_equal. apply IH, H.
Qed.
End MaskLemmas.

(** ** One call of [__dfs] *)

Lemma dfs_eq_nil l eps i x cur_pred cur_p mask st :
  __dfs l eps [] i x cur_pred cur_p mask st =
  let change := assign mask (map2 Qgt_bool cur_p (select mask (best_p st))) mask in
  (cur_pred,
   {| best_pred := assign change (select change cur_pred) (best_pred st);
      best_p := assign change (select (select mask change) cur_p) (best_p st);
      n_nodes := n_nodes st |}).
Proof. reflexivity. Qed.

Lemma dfs_eq_cons l eps e ests i x cur_pred cur_p mask st :
  __dfs l eps (e :: ests) i x cur_pred cur_p mask st =
  let proba := predict_proba e (hstack_prefix (select mask x) (select mask cur_pred) i) in
  let r := __dfs l eps ests (S i) x
             (assign_col mask i (map astype_bool (map np_argmax proba)) cur_pred)
             (_new_score l cur_p (map np_max proba)) mask
             {| best_pred := best_pred st; best_p := best_p st;
                n_nodes := n_nodes st + count_nonzero mask |} in
  let proba_min := _new_score l cur_p (map np_min proba) in
  let condition := map (fun p => Qge_bool p eps) proba_min in
  let new_mask := assign mask condition mask in
  if (0 <? count_nonzero new_mask)%nat then
    __dfs l eps ests (S i) x
      (assign_col new_mask i (map astype_bool (map np_argmin (select condition proba))) (fst r))
      (select condition proba_min) new_mask (snd r)
  else r.
Proof.
  cbn [__dfs]. cbv zeta.
  destruct (__dfs l eps ests (S i) x _ _ mask _) as [cp1 st1]. reflexivity.
Qed.

(** A call whose mask selects no row changes nothing. *)
Lemma dfs_mask_none l eps ests : forall i x cur_pred cur_p mask st,
  count_nonzero mask = 0%nat ->
  __dfs l eps ests i x cur_pred cur_p mask st = (cur_pred, st).
Proof.
  induction ests as [|e ests IH]; intros i x cur_pred cur_p mask st H.
  - rewrite dfs_eq_nil. cbv zeta.
    rewrite !(assign_none mask) by exact H.
    destruct st; reflexivity.
  - rewrite dfs_eq_cons. cbv zeta.
    rewrite !(select_none mask) by exact H. cbn [hstack_prefix map2 predict_proba map].
    unfold _new_score. rewrite !map2_nil_r. cbn [map].
    rewrite !(assign_none mask) by exact H.
    rewrite !(assign_col_none mask) by exact H.
    rewrite H, Nat.add_0_r. cbn [Nat.ltb Nat.leb]. rewrite IH by exact H.
    destruct st; reflexivity.
Qed.

(** The node counter is only ever added to. *)
Lemma dfs_shift l eps ests : forall i x cur_pred cur_p mask bp bq n k,
  __dfs l eps ests i x cur_pred cur_p mask
        {| best_pred := bp; best_p := bq; n_nodes := n + k |} =
  add_nodes k (__dfs l eps ests i x cur_pred cur_p mask
                 {| best_pred := bp; best_p := bq; n_nodes := n |}).
Proof.
  induction ests as [|e ests IH]; intros i x cur_pred cur_p mask bp bq n k.
  - reflexivity.
  - rewrite !dfs_eq_cons. cbv zeta. cbn [best_pred best_p n_nodes].
    replace (n + k + count_nonzero mask)%nat with (n + count_nonzero mask + k)%nat by lia.
    rewrite IH.
    destruct (__dfs l eps ests (S i) x _ _ mask _) as [cp1 [bp1 bq1 n1]].
    cbn [add_nodes fst snd best_pred best_p n_nodes].
    destruct (0 <? _)%nat; [|reflexivity].
    apply IH.
Qed.

(** ** The batch is the list of its rows *)

(** Runs the array operations on arrays whose first row is known. *)
Ltac mask_step :=
  unfold _new_score, predict_proba, hstack_prefix;
  cbn [select assign assign_col map2 map fst snd best_pred best_p n_nodes].

Lemma count_nonzero_true mask : count_nonzero (true :: mask) = S (count_nonzero mask).
Proof. reflexivity. Qed.

Lemma count_nonzero_false mask : count_nonzero (false :: mask) = count_nonzero mask.
Proof. reflexivity. Qed.

(** Closes an equation between two results of [__dfs] that differ in the
    order in which the node counter was summed. *)
Ltac nodes_eq :=
  try destruct (__dfs _ _ _ _ _ _ _ _ _) as [? [? ? ?]];
  cbn [fst snd best_pred best_p n_nodes];
  match goal with
  | |- (_, {| best_pred := _; best_p := _; n_nodes := ?a |}) =
       (_, {| best_pred := _; best_p := _; n_nodes := ?b |}) =>
      replace a with b by lia; reflexivity
  end.

Lemma ltb_0_S n : (0 <? S n)%nat = true.
Proof. reflexivity. Qed.

(** A row outside the mask is left alone. *)
Lemma dfs_cons_false l eps ests : forall i xr x cp cps ps mask bp bps bq bqs n,
  __dfs l eps ests i (xr :: x) (cp :: cps) ps (false :: mask)
        {| best_pred := bp :: bps; best_p := bq :: bqs; n_nodes := n |} =
  cons_row cp (bp, bq) 0
    (__dfs l eps ests i x cps ps mask
           {| best_pred := bps; best_p := bqs; n_nodes := n |}).
Proof.
  induction ests as [|e ests IH]; intros i xr x cp cps ps mask bp bps bq bqs n.
  - rewrite !dfs_eq_nil. unfold cons_row. mask_step.
    rewrite Nat.add_0_r. reflexivity.
  - rewrite !dfs_eq_cons. cbv zeta. mask_step.
    rewrite !count_nonzero_false, IH.
    destruct (__dfs l eps ests (S i) x _ _ mask _) as [cps1 [bps1 bqs1 n1]].
    unfold cons_row at 1 2 3. mask_step. rewrite Nat.add_0_r.
    destruct (0 <? _)%nat; [|reflexivity].
    apply IH.
Qed.

Lemma dfs_row_eq_cons l eps e ests i xr cp p b :
  dfs_row l eps (e :: ests) i xr cp p b =
  let pr := e (xr ++ map Q_of_bool (firstn i cp)) in
  let r := dfs_row l eps ests (S i) xr
             (set_nth i (astype_bool (np_argmax pr)) cp)
             (new_score1 l p (np_max pr)) b in
  let p_min := new_score1 l p (np_min pr) in
  if Qge_bool p_min eps then
    let r' := dfs_row l eps ests (S i) xr
                (set_nth i (astype_bool (np_argmin pr)) (fst (fst r)))
                p_min (snd (fst r)) in
    (fst r', (snd r' + (snd r + 1))%nat)
  else (fst r, (snd r + 1)%nat).
Proof.
  cbn [dfs_row]. cbv zeta.
  destruct (dfs_row l eps ests (S i) xr _ _ b) as [[cp2 b2] c2].
  cbn [fst snd]. destruct (Qge_bool _ eps); [|reflexivity].
  destruct (dfs_row l eps ests (S i) xr _ _ b2) as [[cp4 b4] c4]. reflexivity.
Qed.

(** A row inside the mask is searched as [dfs_row] searches it, whatever the
    other rows do. *)
Lemma dfs_cons_true l eps ests : forall i xr x cp cps p ps mask bp bps bq bqs n,
  __dfs l eps ests i (xr :: x) (cp :: cps) (p :: ps) (true :: mask)
        {| best_pred := bp :: bps; best_p := bq :: bqs; n_nodes := n |} =
  let r := dfs_row l eps ests i xr cp p (bp, bq) in
  cons_row (fst (fst r)) (snd (fst r)) (snd r)
    (__dfs l eps ests i x cps ps mask
           {| best_pred := bps; best_p := bqs; n_nodes := n |}).
Proof.
  induction ests as [|e ests IH]; intros i xr x cp cps p ps mask bp bps bq bqs n.
  - rewrite !dfs_eq_nil. unfold cons_row. cbn [dfs_row]. unfold leaf_update.
    mask_step. rewrite Nat.add_0_r.
    destruct (Qgt_bool p bq); mask_step; reflexivity.
  - rewrite !dfs_eq_cons, dfs_row_eq_cons. cbv zeta. mask_step.
    set (pr := e (xr ++ map Q_of_bool (firstn i cp))).
    rewrite count_nonzero_true.
    replace (n + S (count_nonzero mask))%nat
      with (n + count_nonzero mask + 1)%nat by lia.
    rewrite dfs_shift, IH. cbv zeta.
    destruct (dfs_row l eps ests (S i) xr _ _ (bp, bq)) as [[cp2 [bp2 bq2]] c2].
    destruct (__dfs l eps ests (S i) x _ _ mask _) as [cps1 [bps1 bqs1 n1]].
    unfold add_nodes, cons_row. mask_step.
    destruct (Qge_bool (new_score1 l p (np_min pr)) eps) eqn:Hc; mask_step.
    + (* the head row passes the condition *)
      rewrite count_nonzero_true, ltb_0_S.
      rewrite dfs_shift, IH, dfs_shift. cbv zeta.
      destruct (dfs_row l eps ests (S i) xr _ _ (bp2, bq2)) as [[cp4 [bp4 bq4]] c4].
      cbn [fst snd].
      destruct (0 <? _)%nat eqn:Hg.
      * unfold add_nodes, cons_row. mask_step. nodes_eq.
      * apply Nat.ltb_ge in Hg.
        rewrite dfs_mask_none by lia.
        rewrite assign_col_none by lia.
        unfold add_nodes, cons_row. mask_step. nodes_eq.
    + (* the head row is retired from the branch *)
      rewrite count_nonzero_false.
      destruct (0 <? _)%nat eqn:Hg.
      * rewrite dfs_shift, dfs_cons_false, dfs_shift.
        unfold add_nodes, cons_row. mask_step. nodes_eq.
      * unfold cons_row. mask_step. nodes_eq.
Qed.


Lemma length_set_nth {A} (i : nat) (k : A) (row : list A) :
  List.length (set_nth i k row) = List.length row.
Proof.
  revert i; induction row as [|a row IH]; intros [|i]; cbn; auto.
Qed.

Lemma firstn_set_nth {A} (i : nat) (k : A) (row : list A) :
  (i < List.length row)%nat ->
  firstn (S i) (set_nth i k row) = firstn i row ++ [k].
Proof.
  revert i; induction row as [|a row IH]; intros i H; cbn in H; [lia|].
  destruct i as [|i].
  - reflexivity.
  - cbn [set_nth]. rewrite !firstn_cons, IH by lia. reflexivity.
Qed.

Lemma firstn_set_nth_same {A} (i : nat) (k : A) (row : list A) :
  firstn i (set_nth i k row) = firstn i row.
Proof.
  revert i; induction row as [|a row IH]; intros [|i]; cbn; auto.
  rewrite IH. reflexivity.
Qed.

Lemma firstn_pred_eq {A} (i : nat) (a b : list A) :
  firstn (S i) a = firstn (S i) b -> firstn i a = firstn i b.
Proof.
  intros H.
  rewrite <- (Nat.min_l i (S i)) by lia.
  rewrite <- !firstn_firstn, H. reflexivity.
Qed.

Lemma best_of_app ls ls' b : best_of (ls ++ ls') b = best_of ls' (best_of ls b).
Proof. apply fold_left_app. Qed.

(** [dfs_row] computes the leaves, the best path and the node count of the
    path-valued search; it leaves the decided prefix of [cur_pred] alone. *)
Lemma dfs_row_spec l eps ests : forall i xr cp p b,
  List.length cp = (i + List.length ests)%nat ->
  let r := dfs_row l eps ests i xr cp p b in
  snd (fst r) = best_of (leaves l eps ests xr (firstn i cp) p) b /\
  snd r = visited l eps ests xr (firstn i cp) p /\
  firstn i (fst (fst r)) = firstn i cp /\
  List.length (fst (fst r)) = List.length cp.
Proof.
  induction ests as [|e ests IH]; intros i xr cp p b Hlen; cbv zeta.
  - cbn [dfs_row leaves visited best_of fold_left fst snd].
    cbn in Hlen. rewrite Nat.add_0_r in Hlen.
    rewrite <- Hlen, firstn_all. auto.
  - rewrite dfs_row_eq_cons. cbv zeta.
    cbn [List.length] in Hlen.
    set (pr := e (xr ++ map Q_of_bool (firstn i cp))).
    set (cp1 := set_nth i (astype_bool (np_argmax pr)) cp).
    assert (H1 : List.length cp1 = (S i + List.length ests)%nat)
      by (unfold cp1; rewrite length_set_nth; lia).
    assert (F1 : firstn (S i) cp1 = firstn i cp ++ [astype_bool (np_argmax pr)])
      by (apply firstn_set_nth; lia).
    destruct (IH (S i) xr cp1 (new_score1 l p (np_max pr)) b H1)
      as (Hb & Hc & Hf & Hl).
    set (r1 := dfs_row l eps ests (S i) xr cp1 (new_score1 l p (np_max pr)) b) in *.
    cbn [leaves visited]. fold pr.
    destruct (Qge_bool (new_score1 l p (np_min pr)) eps) eqn:Hcond.
    + set (cp3 := set_nth i (astype_bool (np_argmin pr)) (fst (fst r1))).
      assert (H3 : List.length cp3 = (S i + List.length ests)%nat)
        by (unfold cp3; rewrite length_set_nth; lia).
      assert (F2 : firstn i (fst (fst r1)) = firstn i cp)
        by (apply firstn_pred_eq in Hf; rewrite Hf; apply firstn_set_nth_same).
      assert (F3 : firstn (S i) cp3 = firstn i cp ++ [astype_bool (np_argmin pr)])
        by (unfold cp3; rewrite firstn_set_nth by lia; rewrite F2; reflexivity).
      destruct (IH (S i) xr cp3 (new_score1 l p (np_min pr)) (snd (fst r1)) H3)
        as (Hb' & Hc' & Hf' & Hl').
      cbn [fst snd].
      repeat split.
      * rewrite best_of_app, Hb', Hb, F3, F1. reflexivity.
      * rewrite Hc', Hc, F3, F1. reflexivity.
      * apply firstn_pred_eq in Hf'. rewrite Hf'. unfold cp3.
        rewrite firstn_set_nth_same. exact F2.
      * rewrite Hl'. unfold cp3. rewrite length_set_nth. lia.
    + cbn [fst snd]. repeat split.
      * rewrite app_nil_r, Hb, F1. reflexivity.
      * rewrite Hc, F1. reflexivity.
      * apply firstn_pred_eq in Hf. rewrite Hf. apply firstn_set_nth_same.
      * rewrite Hl. unfold cp1. apply length_set_nth.
Qed.

(** The search of [_infer]: all rows start from the same state. *)
Lemma dfs_uniform l eps ests i cp p bp bq : forall x n0,
  __dfs l eps ests i x
    (repeat cp (List.length x)) (repeat p (List.length x))
    (repeat true (List.length x))
    {| best_pred := repeat bp (List.length x);
       best_p := repeat bq (List.length x); n_nodes := n0 |} =
  (map (fun xr => fst (fst (dfs_row l eps ests i xr cp p (bp, bq)))) x,
   {| best_pred :=
        map (fun xr => fst (snd (fst (dfs_row l eps ests i xr cp p (bp, bq))))) x;
      best_p :=
        map (fun xr => snd (snd (fst (dfs_row l eps ests i xr cp p (bp, bq))))) x;
      n_nodes :=
        (n0 + sum_nat (map (fun xr => snd (dfs_row l eps ests i xr cp p (bp, bq))) x))%nat |}).
Proof.
  induction x as [|xr x IH]; intros n0.
  - cbn [List.length repeat map sum_nat fold_right].
    rewrite dfs_mask_none by reflexivity. rewrite Nat.add_0_r. reflexivity.
  - cbn [List.length repeat map sum_nat fold_right].
    rewrite dfs_cons_true, IH. cbv zeta. unfold cons_row. cbn [fst snd best_pred best_p n_nodes].
    unfold sum_nat. nodes_eq.
Qed.

(** The attributes after the search of [_infer], row by row. *)
Theorem Eps_search_rows (self : EpsilonApproximationInferer) (x : list (list Q)) :
  Eps_search self x =
  {| best_pred := map (fun xr => fst (row_best self xr)) x;
     best_p := map (fun xr => snd (row_best self xr)) x;
     n_nodes := sum_nat (map (row_visited self) x) |}.
Proof.
  unfold Eps_search. rewrite dfs_uniform. cbn [snd].
  unfold row_best, row_visited, row_leaves.
  f_equal.
  - apply map_ext; intros xr.
    destruct (dfs_row_spec (loss (base self)) (epsilon self) (estimators_ (cc self))
                0 xr (repeat false (List.length (estimators_ (cc self)))) 1
                (repeat false (List.length (estimators_ (cc self))), 0))
      as (Hb & _); [apply repeat_length|].
    rewrite Hb. reflexivity.
  - apply map_ext; intros xr.
    destruct (dfs_row_spec (loss (base self)) (epsilon self) (estimators_ (cc self))
                0 xr (repeat false (List.length (estimators_ (cc self)))) 1
                (repeat false (List.length (estimators_ (cc self))), 0))
      as (Hb & _); [apply repeat_length|].
    rewrite Hb. reflexivity.
  - cbn [Nat.add]. f_equal. apply map_ext; intros xr.
    destruct (dfs_row_spec (loss (base self)) (epsilon self) (estimators_ (cc self))
                0 xr (repeat false (List.length (estimators_ (cc self)))) 1
                (repeat false (List.length (estimators_ (cc self))), 0))
      as (_ & Hc & _); [apply repeat_length|].
    exact Hc.
Qed.


(** ** Numbers *)

Lemma Qgt_bool_iff (a b : Q) : Qgt_bool a b = true <-> b < a.
Proof.
  unfold Qgt_bool. rewrite negb_true_iff.
  split; intros H.
  - apply Qnot_le_lt. intros Hle. apply Qle_bool_iff in Hle. congruence.
  - destruct (Qle_bool a b) eqn:E; [|reflexivity].
    apply Qle_bool_iff in E. exfalso. exact (Qlt_not_le _ _ H E).
Qed.

Lemma Qge_bool_iff (a b : Q) : Qge_bool a b = true <-> b <= a.
Proof. unfold Qge_bool. apply Qle_bool_iff. Qed.

Lemma Qge_bool_weaken (p eps1 eps2 : Q) :
  eps1 <= eps2 -> Qge_bool p eps2 = true -> Qge_bool p eps1 = true.
Proof.
  rewrite !Qge_bool_iff. intros H1 H2. exact (Qle_trans _ _ _ H1 H2).
Qed.

Lemma Qge_bool_eq (p eps1 eps2 : Q) :
  eps1 == eps2 -> Qge_bool p eps1 = Qge_bool p eps2.
Proof.
  intros H.
  destruct (Qge_bool p eps1) eqn:E1, (Qge_bool p eps2) eqn:E2; try reflexivity.
  - rewrite <- E2. symmetry. apply Qge_bool_weaken with eps1; [|exact E1].
    rewrite H. apply Qle_refl.
  - rewrite <- E1. apply Qge_bool_weaken with eps2; [|exact E2].
    rewrite H. apply Qle_refl.
Qed.

(** ** Node counts and the threshold *)

Lemma visited_mono l eps1 eps2 ests : eps1 <= eps2 ->
  forall xr path p,
    (visited l eps2 ests xr path p <= visited l eps1 ests xr path p)%nat.
Proof.
  intros He. induction ests as [|e ests IH]; intros xr path p; cbn [visited].
  - lia.
  - set (pr := e (xr ++ map Q_of_bool path)).
    destruct (Qge_bool (new_score1 l p (np_min pr)) eps2) eqn:E2.
    + rewrite (Qge_bool_weaken _ _ _ He E2).
      apply Nat.add_le_mono; [apply IH|]. apply Nat.add_le_mono; [apply IH|lia].
    + apply Nat.add_le_mono; [lia|]. apply Nat.add_le_mono; [apply IH|lia].
Qed.

Lemma sum_nat_mono {A} (f g : A -> nat) (l : list A) :
  (forall a, f a <= g a)%nat -> (sum_nat (map f l) <= sum_nat (map g l))%nat.
Proof.
  intros H. induction l as [|a l IH]; cbn; [lia|].
  specialize (H a). unfold sum_nat in IH. lia.
Qed.

Lemma Q_of_nat_le (a b : nat) : (a <= b)%nat -> Q_of_nat a <= Q_of_nat b.
Proof.
  intros H. unfold Q_of_nat. rewrite <- Zle_Qle. lia.
Qed.

Lemma Q_of_nat_pos (n : nat) : (0 < n)%nat -> 0 < Q_of_nat n.
Proof.
  intros H. unfold Q_of_nat. change 0 with (inject_Z 0). rewrite <- Zlt_Qlt. lia.
Qed.

Lemma mean_nodes_mono (a b n : nat) :
  (0 < n)%nat -> (a <= b)%nat ->
  Q_of_nat a / Q_of_nat n <= Q_of_nat b / Q_of_nat n.
Proof.
  intros Hn Hab. unfold Qdiv.
  apply Qmult_le_compat_r; [apply Q_of_nat_le, Hab|].
  apply Qlt_le_weak, Qinv_lt_0_compat, Q_of_nat_pos, Hn.
Qed.

Lemma Eps_infer_rows (self : EpsilonApproximationInferer) (x : list (list Q)) :
  x <> [] ->
  Eps_infer self x =
  Ok (map (fun xr => fst (row_best self xr)) x,
      Q_of_nat (sum_nat (map (row_visited self) x)) / Q_of_nat (List.length x)).
Proof.
  intros Hx. unfold Eps_infer. rewrite Eps_search_rows. cbn [best_pred n_nodes].
  destruct x; [congruence|]. reflexivity.
Qed.

(** C7: for a fixed chain, loss and non-empty batch, and thresholds
    [eps1 <= eps2], the mean visited-node count that [_infer] reports with
    [eps1] is at least the count it reports with [eps2]: every node expanded
    under the larger threshold is expanded under the smaller one. *)
Theorem node_count_antitone_in_epsilon
    (self1 self2 : EpsilonApproximationInferer) (x : list (list Q)) :
  cc self1 = cc self2 ->
  loss (base self1) = loss (base self2) ->
  epsilon self1 <= epsilon self2 ->
  x <> [] ->
  exists pred1 n1 pred2 n2,
    Eps_infer self1 x = Ok (pred1, n1) /\
    Eps_infer self2 x = Ok (pred2, n2) /\
    n2 <= n1.
Proof.
  intros Hcc Hl He Hx.
  rewrite !Eps_infer_rows by exact Hx.
  do 4 eexists. split; [reflexivity|]. split; [reflexivity|].
  apply mean_nodes_mono.
  - destruct x; [congruence|]. cbn. lia.
  - apply sum_nat_mono. intros xr. unfold row_visited.
    rewrite Hcc, Hl. apply visited_mono, He.
Qed.

Lemma node_count_antitone_in_epsilon_witness :
  exists pred1 n1 pred2 n2,
    Eps_infer (scenario "exact_match" 0) scenario_x = Ok (pred1, n1) /\
    Eps_infer (scenario "exact_match" (1 # 2)) scenario_x = Ok (pred2, n2) /\
    n2 <= n1.
Proof.
  apply (@node_count_antitone_in_epsilon
           (scenario "exact_match" 0) (scenario "exact_match" (1 # 2)) scenario_x).
  - reflexivity.
  - reflexivity.
  - vm_compute. discriminate.
  - discriminate.
Defined.


(** ** The best-path bookkeeping *)

Lemma leaf_update_improves cp p b : snd b < p -> leaf_update cp p b = (cp, p).
Proof.
  intros H. unfold leaf_update. apply Qgt_bool_iff in H. rewrite H. reflexivity.
Qed.

Lemma leaf_update_keeps cp p b : ~ snd b < p -> leaf_update cp p b = b.
Proof.
  intros H. unfold leaf_update.
  destruct (Qgt_bool p (snd b)) eqn:E; [|reflexivity].
  apply Qgt_bool_iff in E. contradiction.
Qed.

Lemma leaf_update_le cp p b : snd b <= snd (leaf_update cp p b).
Proof.
  unfold leaf_update. destruct (Qgt_bool p (snd b)) eqn:E.
  - apply Qgt_bool_iff in E. apply Qlt_le_weak, E.
  - apply Qle_refl.
Qed.

Lemma best_of_snoc ls lf b :
  best_of (ls ++ [lf]) b = leaf_update (fst lf) (snd lf) (best_of ls b).
Proof. rewrite best_of_app. reflexivity. Qed.

Lemma firstn_S_nth_error {A} (ls : list A) k lf :
  nth_error ls k = Some lf -> firstn (S k) ls = firstn k ls ++ [lf].
Proof.
  revert k; induction ls as [|a ls IH]; intros [|k] H; cbn in H; try discriminate.
  - injection H as ->. reflexivity.
  - rewrite !firstn_cons, (IH _ H). reflexivity.
Qed.

Lemma best_of_step ls k lf b :
  nth_error ls k = Some lf ->
  best_of (firstn (S k) ls) b =
  leaf_update (fst lf) (snd lf) (best_of (firstn k ls) b).
Proof.
  intros H. rewrite (firstn_S_nth_error _ _ _ H). apply best_of_snoc.
Qed.

Lemma best_of_mono ls : forall ls' b, snd (best_of ls b) <= snd (best_of (ls ++ ls') b).
Proof.
  intros ls' b. rewrite best_of_app. generalize (best_of ls b) as b'.
  induction ls' as [|lf ls' IH]; intros b'; cbn.
  - apply Qle_refl.
  - eapply Qle_trans; [apply leaf_update_le|apply IH].
Qed.

(** The result of the bookkeeping is the start value when no leaf improves on
    it, and otherwise the last leaf that improved on the best so far. *)
Lemma best_of_last_improving ls b :
  (best_of ls b = b /\
   forall k lf, nth_error ls k = Some lf ->
                ~ snd (best_of (firstn k ls) b) < snd lf) \/
  (exists k, nth_error ls k = Some (best_of ls b) /\
             snd (best_of (firstn k ls) b) < snd (best_of ls b) /\
             forall j lf, (k < j)%nat -> nth_error ls j = Some lf ->
                          ~ snd (best_of (firstn j ls) b) < snd lf).
Proof.
  induction ls as [|lf ls IH] using rev_ind.
  - left. split; [reflexivity|]. intros [|k] lf H; discriminate.
  - rewrite best_of_snoc.
    assert (Hpre : forall j, (j <= List.length ls)%nat ->
                     firstn j (ls ++ [lf]) = firstn j ls).
    { intros j Hj. rewrite firstn_app.
      replace (j - List.length ls)%nat with 0%nat by lia.
      cbn. apply app_nil_r. }
    assert (Hnth : forall j, (j < List.length ls)%nat ->
                     nth_error (ls ++ [lf]) j = nth_error ls j).
    { intros j Hj. apply nth_error_app1, Hj. }
    assert (Hlast : nth_error (ls ++ [lf]) (List.length ls) = Some lf).
    { rewrite nth_error_app2 by lia. rewrite Nat.sub_diag. reflexivity. }
    assert (Hall : firstn (List.length ls) ls = ls) by apply firstn_all.
    destruct (Qlt_le_dec (snd (best_of ls b)) (snd lf)) as [Himp|Hno].
    + (* the new leaf improves *)
      right. exists (List.length ls).
      rewrite (leaf_update_improves _ _ _ Himp), Hpre, Hall by lia.
      split; [rewrite Hlast; destruct lf; reflexivity|].
      split; [exact Himp|].
      intros j lf' Hj Hlf'.
      assert (j < List.length (ls ++ [lf]))%nat
        by (apply nth_error_Some; congruence).
      rewrite length_app in H. cbn in H. lia.
    + (* the new leaf does not improve *)
      assert (Hno' : ~ snd (best_of ls b) < snd lf) by (apply Qle_not_lt, Hno).
      rewrite (leaf_update_keeps _ _ _ Hno').
      assert (Hcase : forall j lf', (j <= List.length ls)%nat ->
                 nth_error (ls ++ [lf]) j = Some lf' ->
                 (forall lf'', nth_error ls j = Some lf'' ->
                      ~ snd (best_of (firstn j ls) b) < snd lf'') ->
                 ~ snd (best_of (firstn j (ls ++ [lf])) b) < snd lf').
      { intros j lf' Hj Hlf' Hold. rewrite Hpre by lia.
        destruct (Nat.eq_dec j (List.length ls)) as [->|Hne].
        - rewrite Hlast in Hlf'. injection Hlf' as <-. rewrite Hall. exact Hno'.
        - rewrite Hnth in Hlf' by lia. apply Hold, Hlf'. }
      assert (Hbound : forall j lf', nth_error (ls ++ [lf]) j = Some lf' ->
                         (j <= List.length ls)%nat).
      { intros j lf' Hlf'.
        assert (j < List.length (ls ++ [lf]))%nat
          by (apply nth_error_Some; congruence).
        rewrite length_app in H. cbn in H. lia. }
      destruct IH as [[Heq Hnone]|[k (Hk & Hlt & Hafter)]].
      * left. split; [exact Heq|].
        intros j lf' Hlf'. apply Hcase; eauto.
      * right. exists k.
        assert (Hklen : (k < List.length ls)%nat)
          by (apply nth_error_Some; congruence).
        rewrite Hnth, Hpre by lia.
        split; [exact Hk|]. split; [exact Hlt|].
        intros j lf' Hj Hlf'. apply Hcase; eauto.
Qed.

(** C9: for the row at index [r] of the batch, the path and score that
    [_infer] stores are the result of the leaf bookkeeping run over the
    complete paths the search reaches for that row, started from the
    all-False path with score 0; the stored pair is replaced at a leaf exactly
    when the leaf's score is strictly greater than the stored score; the
    stored score never decreases; and the final prediction is the last leaf
    that strictly improved on the best so far (the all-False start value if
    no leaf did). *)
Theorem best_path_is_last_strict_improvement
    (self : EpsilonApproximationInferer) (x : list (list Q))
    (r : nat) (xr : list Q) :
  nth_error x r = Some xr ->
  let ls := row_leaves self xr in
  let b0 := (repeat false (List.length (estimators_ (cc self))), 0) in
  let st := Eps_search self x in
  exists path s,
    nth_error (best_pred st) r = Some path /\
    nth_error (best_p st) r = Some s /\
    (path, s) = best_of ls b0 /\
    (forall k lf, nth_error ls k = Some lf ->
       let before := best_of (firstn k ls) b0 in
       let after := best_of (firstn (S k) ls) b0 in
       (snd before < snd lf -> after = lf) /\
       (~ snd before < snd lf -> after = before) /\
       snd before <= snd after) /\
    ((path, s) = b0 /\
     (forall k lf, nth_error ls k = Some lf ->
        ~ snd (best_of (firstn k ls) b0) < snd lf)
     \/
     exists k, nth_error ls k = Some (path, s) /\
       snd (best_of (firstn k ls) b0) < s /\
       forall j lf, (k < j)%nat -> nth_error ls j = Some lf ->
         ~ snd (best_of (firstn j ls) b0) < snd lf).
Proof.
  intros Hr ls b0 st.
  exists (fst (best_of ls b0)), (snd (best_of ls b0)).
  unfold st. rewrite Eps_search_rows. cbn [best_pred best_p].
  split; [rewrite nth_error_map, Hr; reflexivity|].
  split; [rewrite nth_error_map, Hr; reflexivity|].
  split; [destruct (best_of ls b0); reflexivity|].
  split.
  - intros k lf Hk. cbv zeta. rewrite (best_of_step _ _ _ _ Hk).
    split; [|split].
    + intros H. rewrite (leaf_update_improves _ _ _ H). destruct lf; reflexivity.
    + intros H. apply leaf_update_keeps, H.
    + apply leaf_update_le.
  - rewrite <- surjective_pairing.
    destruct (best_of_last_improving ls b0) as [[Heq Hnone]|[k H]].
    + left. split; assumption.
    + right. exists k. exact H.
Qed.

Lemma best_path_is_last_strict_improvement_witness :
  let self := scenario "exact_match" 0 in
  let ls := row_leaves self [1 # 2; 3] in
  let b0 := (repeat false (List.length (estimators_ (cc self))), 0) in
  let st := Eps_search self scenario_x in
  exists path s,
    nth_error (best_pred st) 0 = Some path /\
    nth_error (best_p st) 0 = Some s /\
    (path, s) = best_of ls b0 /\
    (forall k lf, nth_error ls k = Some lf ->
       let before := best_of (firstn k ls) b0 in
       let after := best_of (firstn (S k) ls) b0 in
       (snd before < snd lf -> after = lf) /\
       (~ snd before < snd lf -> after = before) /\
       snd before <= snd after) /\
    ((path, s) = b0 /\
     (forall k lf, nth_error ls k = Some lf ->
        ~ snd (best_of (firstn k ls) b0) < snd lf)
     \/
     exists k, nth_error ls k = Some (path, s) /\
       snd (best_of (firstn k ls) b0) < s /\
       forall j lf, (k < j)%nat -> nth_error ls j = Some lf ->
         ~ snd (best_of (firstn j ls) b0) < snd lf).
Proof.
  apply (best_path_is_last_strict_improvement
           (scenario "exact_match" 0) scenario_x 0 [1 # 2; 3]).
  reflexivity.
Defined.


(** ** Determinism *)

Lemma leaves_ext l eps1 eps2 ests1 ests2 :
  eps1 == eps2 -> same_answers ests1 ests2 ->
  forall xr path p,
    leaves l eps1 ests1 xr path p = leaves l eps2 ests2 xr path p.
Proof.
  intros He Hs. induction Hs as [|e e' ests ests' Hee _ IH]; intros xr path p.
  - reflexivity.
  - cbn [leaves]. rewrite Hee, (Qge_bool_eq _ _ _ He), !IH. reflexivity.
Qed.

Lemma visited_ext l eps1 eps2 ests1 ests2 :
  eps1 == eps2 -> same_answers ests1 ests2 ->
  forall xr path p,
    visited l eps1 ests1 xr path p = visited l eps2 ests2 xr path p.
Proof.
  intros He Hs. induction Hs as [|e e' ests ests' Hee _ IH]; intros xr path p.
  - reflexivity.
  - cbn [visited]. rewrite Hee, (Qge_bool_eq _ _ _ He), !IH. reflexivity.
Qed.

Lemma reward_loop_ext l ests1 ests2 :
  same_answers ests1 ests2 ->
  forall i x pred reward,
    reward_loop l ests1 i x pred reward = reward_loop l ests2 i x pred reward.
Proof.
  intros Hs. induction Hs as [|e e' ests ests' Hee _ IH]; intros i x pred reward.
  - reflexivity.
  - cbn [reward_loop]. unfold predict_proba.
    rewrite (map_ext _ _ Hee). apply IH.
Qed.

Lemma tie_labels (pr : Q * Q) :
  fst pr == snd pr ->
  np_argmax pr = 0%nat /\ np_argmin pr = 0%nat /\
  np_max pr = fst pr /\ np_min pr = fst pr.
Proof.
  intros H. unfold np_argmax, np_argmin, np_max, np_min.
  assert (H1 : Qge_bool (fst pr) (snd pr) = true)
    by (apply Qge_bool_iff; rewrite H; apply Qle_refl).
  assert (H2 : Qle_bool (fst pr) (snd pr) = true)
    by (apply Qle_bool_iff; rewrite H; apply Qle_refl).
  rewrite H1, H2. auto.
Qed.




(** ** Construction *)

Lemma is_loss_iff (l : string) :
  is_loss l = true <-> l = "exact_match"%string \/ l = "hamming"%string.
Proof.
  unfold is_loss. rewrite orb_true_iff, !String.eqb_eq. reflexivity.
Qed.

Lemma eps_range_iff (eps : Q) :
  Qle_bool 0 eps && Qle_bool eps (1 # 2) = true <-> 0 <= eps /\ eps <= 1 # 2.
Proof. rewrite andb_true_iff, !Qle_bool_iff. reflexivity. Qed.

(** C8: [BaseInferer.__init__] raises exactly when the loss is neither
    'exact_match' nor 'hamming'; [EpsilonApproximationInferer.__init__] raises
    exactly when the loss is invalid or epsilon is outside [0, 0.5]; whether
    the constructor raises does not depend on the chain, so it is settled
    without any estimator being queried; and [_infer] never raises an
    assertion error afterwards. *)
Theorem constructors_validate_parameters (c : Chain) (l : string) (eps : Q) :
  let valid_loss := l = "exact_match"%string \/ l = "hamming"%string in
  let valid_eps := 0 <= eps /\ eps <= 1 # 2 in
  (BaseInferer_init c l = Raise AssertionError <-> ~ valid_loss) /\
  (BaseInferer_init c l = Ok {| _cc := c; loss := l |} <-> valid_loss) /\
  (EpsilonApproximationInferer_init c l eps = Raise AssertionError
   <-> ~ (valid_loss /\ valid_eps)) /\
  (EpsilonApproximationInferer_init c l eps =
   Ok {| base := {| _cc := c; loss := l |}; cc := c; epsilon := eps;
         attrs := no_attrs |}
   <-> valid_loss /\ valid_eps) /\
  (forall c', is_raise (EpsilonApproximationInferer_init c' l eps) =
              is_raise (EpsilonApproximationInferer_init c l eps)) /\
  (forall self x, Eps_infer self x <> Raise AssertionError).
Proof.
  cbv zeta.
  pose proof (is_loss_iff l) as Hl. pose proof (eps_range_iff eps) as He.
  assert (Hinfer : forall self x, Eps_infer self x <> Raise AssertionError).
  { intros self x. unfold Eps_infer. destruct (Nat.eqb _ _); discriminate. }
  unfold EpsilonApproximationInferer_init, BaseInferer_init.
  destruct (is_loss l) eqn:El; cbn [bind];
    [destruct (Qle_bool 0 eps && Qle_bool eps (1 # 2)) eqn:Ee|].
  - assert (Hvl : l = "exact_match"%string \/ l = "hamming"%string)
      by (apply Hl; reflexivity).
    assert (Hve : 0 <= eps /\ eps <= 1 # 2) by (apply He; reflexivity).
    repeat apply conj; try exact Hinfer; try reflexivity;
      intuition discriminate.
  - assert (Hvl : l = "exact_match"%string \/ l = "hamming"%string)
      by (apply Hl; reflexivity).
    assert (Hve : ~ (0 <= eps /\ eps <= 1 # 2))
      by (intros H; apply He in H; discriminate).
    repeat apply conj; try exact Hinfer; try reflexivity;
      intuition discriminate.
  - assert (Hvl : ~ (l = "exact_match"%string \/ l = "hamming"%string))
      by (intros H; apply Hl in H; discriminate).
    repeat apply conj; try exact Hinfer; try reflexivity;
      intuition discriminate.
Qed.

(** ** predict *)

Lemma infer_py_shape {T} `{Inferer T} (self : T) (x : list (list Q)) :
  match infer_py self x with
  | Ok v => exists pred n reward, v = VTuple [VPred pred; VNum n; VNum reward]
  | Raise _ => True
  end.
Proof.
  unfold infer_py. destruct (infer self x) as [[[pred n] reward]|e]; cbn [bind].
  - eauto.
  - exact I.
Qed.

Lemma predict_not_greedy_raises sk ex bm mc c x m rn kw :
  String.eqb m "greedy" = false ->
  is_raise (predict sk ex bm mc c x m rn kw) = true.
Proof.
  intros Hm. unfold predict. rewrite Hm.
  destruct (make_inferer ex bm mc c m kw) as [inf|e]; cbn [bind]; [|reflexivity].
  pose proof (@infer_py_shape _ (carrier_Inferer inf) (obj inf) x) as Hs.
  destruct (infer_py _ x) as [v|e]; cbn [bind]; [|reflexivity].
  destruct Hs as (pred & n & reward & ->). reflexivity.
Qed.

(** C3: on the recognised method 'epsilon_approximation', with any keyword
    arguments that hold an epsilon, [predict] raises a TypeError: the
    constructor is called with two positional arguments. *)
Theorem predict_epsilon_approximation_raises sk ex bm mc c x rn kw e :
  getitem kw "epsilon" = Ok e ->
  predict sk ex bm mc c x "epsilon_approximation" rn kw = Raise TypeError.
Proof.
  intros He. unfold predict, make_inferer.
  cbn [String.eqb Ascii.eqb Bool.eqb]. rewrite He. reflexivity.
Qed.

Lemma predict_epsilon_approximation_raises_witness :
  predict (fun _ _ => []) (fun _ => Raise TypeError) (fun _ => Raise TypeError)
          (fun _ => Raise TypeError) scenario_chain scenario_x
          "epsilon_approximation" false
          [("loss"%string, VStr "exact_match"); ("epsilon"%string, VNum (1 # 4))]
  = Raise TypeError.
Proof.
  apply (predict_epsilon_approximation_raises
           (fun _ _ => []) (fun _ => Raise TypeError) (fun _ => Raise TypeError)
           (fun _ => Raise TypeError) scenario_chain scenario_x false
           [("loss"%string, VStr "exact_match"); ("epsilon"%string, VNum (1 # 4))]
           (VNum (1 # 4))).
  reflexivity.
Defined.

(** C1: on the depth-3 scenario [infer] returns three values (prediction,
    mean node count, mean reward); assigning them to the two targets of
    [predict] raises a ValueError, and so [predict] raises on every
    inference method other than 'greedy'. *)
Theorem infer_returns_three_values :
  (exists n reward,
     infer_py (scenario "exact_match" (1 # 2)) scenario_x =
     Ok (VTuple [VPred [[false; false; false]]; VNum n; VNum reward]) /\
     n == 3 /\ reward == 378 # 1000) /\
  (v <- infer_py (scenario "exact_match" (1 # 2)) scenario_x ;; unpack2 v) =
  Raise ValueError /\
  (forall sk ex bm mc c x m rn kw,
     is_raise (predict sk ex bm mc c x m rn kw) = true \/ m = "greedy"%string).
Proof.
  split; [|split].
  - do 2 eexists. split; [vm_compute; reflexivity|]. split; reflexivity.
  - vm_compute. reflexivity.
  - intros. destruct (String.eqb m "greedy") eqn:E.
    + right. apply String.eqb_eq, E.
    + left. apply predict_not_greedy_raises, E.
Qed.



(** ** The replay of the reward *)

Lemma new_score_rows l e g i : forall x pred rew,
  _new_score l rew
    (map2 take (predict_proba e (hstack_prefix x pred i)) (map g pred)) =
  rows3 (fun xr p r =>
           new_score1 l r (take (e (xr ++ map Q_of_bool (firstn i p))) (g p)))
        x pred rew.
Proof.
  unfold _new_score, predict_proba, hstack_prefix.
  induction x as [|xr x IH]; intros pred rew.
  - cbn. apply map2_nil_r.
  - destruct pred as [|p pred]; [cbn; apply map2_nil_r|].
    destruct rew as [|r rew]; [reflexivity|].
    cbn [map2 map rows3]. rewrite IH. reflexivity.
Qed.

Lemma rows3_length {A B C D} (f : A -> B -> C -> D) : forall x y z,
  List.length y = List.length x -> List.length z = List.length x ->
  List.length (rows3 f x y z) = List.length x.
Proof.
  induction x as [|a x IH]; intros [|b y] [|c z] Hy Hz; cbn in *;
    try discriminate; try reflexivity.
  rewrite IH by lia. reflexivity.
Qed.

Lemma rows3_id {A B C} : forall (x : list A) (y : list B) (z : list C),
  List.length y = List.length x -> List.length z = List.length x ->
  rows3 (fun _ _ r => r) x y z = z.
Proof.
  induction x as [|a x IH]; intros [|b y] [|c z] Hy Hz; cbn in *;
    try discriminate; try reflexivity.
  rewrite IH by lia. reflexivity.
Qed.

Lemma rows3_rows3 {A B C} (f g : A -> B -> C -> C) : forall x y z,
  rows3 f x y (rows3 g x y z) = rows3 (fun a b c => f a b (g a b c)) x y z.
Proof.
  induction x as [|a x IH]; intros [|b y] [|c z]; cbn; try reflexivity.
  rewrite IH. reflexivity.
Qed.

(** The batch replay is the row replay of every row. *)
Lemma reward_loop_rows l ests : forall i x pred rew,
  List.length pred = List.length x -> List.length rew = List.length x ->
  reward_loop l ests i x pred rew =
  rows3 (fun xr p r => replay_row l ests i xr p r) x pred rew.
Proof.
  induction ests as [|e ests IH]; intros i x pred rew Hp Hr.
  - cbn [reward_loop replay_row]. symmetry. apply rows3_id; assumption.
  - cbn [reward_loop replay_row]. cbv zeta.
    rewrite (new_score_rows l e (fun r => astype_int (nth i r false)) i).
    rewrite IH; [|assumption|apply rows3_length; assumption].
    apply rows3_rows3.
Qed.

Lemma take_argmax pr : take pr (astype_int (astype_bool (np_argmax pr))) = np_max pr.
Proof. unfold np_argmax, np_max. destruct (Qge_bool _ _); reflexivity. Qed.

Lemma take_argmin pr : take pr (astype_int (astype_bool (np_argmin pr))) = np_min pr.
Proof. unfold np_argmin, np_min. destruct (Qle_bool _ _); reflexivity. Qed.

Lemma firstn_prefix {A} (a b : list A) : firstn (List.length a) (a ++ b) = a.
Proof.
  rewrite firstn_app, Nat.sub_diag, firstn_all. cbn. apply app_nil_r.
Qed.

Lemma nth_middle_default {A} (a b : list A) k d :
  nth (List.length a) (a ++ k :: b) d = k.
Proof. apply nth_middle. Qed.

(** The score the search carries to a leaf is the replayed score of the
    leaf's path. *)
Lemma leaves_replay l eps ests : forall xr path p lf,
  In lf (leaves l eps ests xr path p) ->
  (exists suffix, fst lf = path ++ suffix) /\
  replay_row l ests (List.length path) xr (fst lf) p = snd lf.
Proof.
  induction ests as [|e ests IH]; intros xr path p lf Hin.
  - cbn in Hin. destruct Hin as [<-|[]]. cbn.
    split; [exists []; symmetry; apply app_nil_r|reflexivity].
  - cbn [leaves] in Hin. cbn [replay_row]. cbv zeta.
    set (pr := e (xr ++ map Q_of_bool path)) in *.
    apply in_app_or in Hin.
    assert (Hbranch : forall k s,
              In lf (leaves l eps ests xr (path ++ [k]) (new_score1 l p s)) ->
              take pr (astype_int k) = s ->
              (exists suffix, fst lf = path ++ suffix) /\
              replay_row l ests (S (List.length path)) xr (fst lf)
                (new_score1 l p
                   (take (e (xr ++ map Q_of_bool (firstn (List.length path) (fst lf))))
                         (astype_int (nth (List.length path) (fst lf) false))))
              = snd lf).
    { intros k s Hl Hs.
      destruct (IH _ _ _ _ Hl) as ((suffix & Hsuf) & Hrep).
      rewrite <- app_assoc in Hsuf. cbn [app] in Hsuf.
      split; [eexists; exact Hsuf|].
      rewrite Hsuf at 2 3. rewrite firstn_prefix, nth_middle_default.
      fold pr. rewrite Hs.
      rewrite length_app in Hrep. cbn [List.length] in Hrep.
      rewrite Nat.add_1_r in Hrep. exact Hrep. }
    destruct Hin as [Hin|Hin].
    + apply (Hbranch _ _ Hin), take_argmax.
    + destruct (Qge_bool _ eps); [|destruct Hin].
      apply (Hbranch _ _ Hin), take_argmin.
Qed.


Lemma rows3_map_repeat {A B C D} (F : A -> B -> C -> D) (f : A -> B) (c : C) :
  forall x, rows3 F x (map f x) (repeat c (List.length x)) =
            map (fun a => F a (f a) c) x.
Proof.
  induction x as [|a x IH]; cbn; [reflexivity|]. rewrite IH. reflexivity.
Qed.

(** Under exact match, when every node gives its likelier branch a positive
    probability, the first complete path reached (the greedy one) has a
    positive score. *)
Lemma first_leaf_positive eps ests :
  (forall e, In e ests -> forall row, 0 < np_max (e row)) ->
  forall xr path p, 0 < p ->
    exists lf rest,
      leaves "exact_match" eps ests xr path p = lf :: rest /\ 0 < snd lf.
Proof.
  induction ests as [|e ests IH]; intros Hpos xr path p Hp.
  - exists (path, p), []. split; [reflexivity|exact Hp].
  - cbn [leaves].
    destruct (IH (fun e' H => Hpos e' (or_intror H)) xr
                 (path ++ [astype_bool (np_argmax (e (xr ++ map Q_of_bool path)))])
                 (new_score1 "exact_match" p (np_max (e (xr ++ map Q_of_bool path)))))
      as (lf & rest & Heq & Hlf).
    { unfold new_score1. cbn [String.eqb Ascii.eqb Bool.eqb].
      apply Qmult_lt_0_compat; [exact Hp|]. apply Hpos. left. reflexivity. }
    rewrite Heq. cbn [app]. eauto.
Qed.

Lemma best_of_is_leaf ls lf0 rest (b : list bool * Q) :
  ls = lf0 :: rest -> snd b < snd lf0 -> In (best_of ls b) ls.
Proof.
  intros Hls Hlt.
  destruct (best_of_last_improving ls b) as [[_ Hnone]|[k (Hk & _)]].
  - exfalso. apply (Hnone 0%nat lf0); [rewrite Hls; reflexivity|exact Hlt].
  - eapply nth_error_In, Hk.
Qed.

(** Under exact match the replayed reward is the mean of the scores the
    search stored for the returned paths. *)
Lemma exact_match_replay_is_internal_score
    (self : EpsilonApproximationInferer) (x : list (list Q)) :
  loss (base self) = "exact_match"%string ->
  estimators_ (_cc (base self)) = estimators_ (cc self) ->
  (forall e, In e (estimators_ (cc self)) -> forall row, 0 < np_max (e row)) ->
  __calculate_reward (base self) x (best_pred (Eps_search self x)) =
  mean (best_p (Eps_search self x)).
Proof.
  intros Hl Hc Hpos.
  rewrite Eps_search_rows. cbn [best_pred best_p].
  unfold __calculate_reward. rewrite Hl, Hc.
  cbn [String.eqb Ascii.eqb Bool.eqb]. f_equal.
  rewrite reward_loop_rows by (rewrite ?length_map, ?repeat_length; reflexivity).
  rewrite rows3_map_repeat. apply map_ext. intros xr.
  destruct (first_leaf_positive (epsilon self) (estimators_ (cc self)) Hpos
              xr [] 1) as (lf0 & rest & Heq & Hlf0); [reflexivity|].
  assert (Hin : In (row_best self xr) (row_leaves self xr)).
  { unfold row_best. apply best_of_is_leaf with lf0 rest.
    - unfold row_leaves. rewrite Hl. exact Heq.
    - exact Hlf0. }
  unfold row_leaves in Hin.
  destruct (leaves_replay _ _ _ _ _ _ _ Hin) as (_ & Hrep).
  rewrite Hl in Hrep. exact Hrep.
Qed.


(** ** Threshold 0 without ties *)

Lemma leaf_update_ge cp p b : p <= snd (leaf_update cp p b).
Proof.
  unfold leaf_update. destruct (Qgt_bool p (snd b)) eqn:E.
  - apply Qle_refl.
  - destruct (Qlt_le_dec (snd b) p) as [H|H]; [|exact H].
    apply Qgt_bool_iff in H. congruence.
Qed.

Lemma best_of_ge : forall ls b lf, In lf ls -> snd lf <= snd (best_of ls b).
Proof.
  induction ls as [|a ls IH]; intros b lf Hin; [destruct Hin|].
  change (best_of (a :: ls) b) with (best_of ls (leaf_update (fst a) (snd a) b)).
  destruct Hin as [->|Hin].
  - eapply Qle_trans; [apply leaf_update_ge|].
    apply (best_of_mono [] ls).
  - apply IH, Hin.
Qed.

Lemma new_score1_nonneg l p q : 0 <= p -> 0 <= q -> 0 <= new_score1 l p q.
Proof.
  intros Hp Hq. unfold new_score1. destruct (String.eqb l "exact_match").
  - apply Qmult_le_0_compat; assumption.
  - rewrite <- (Qplus_0_l 0). apply Qplus_le_compat; assumption.
Qed.

Lemma np_max_nonneg pr : proper_node pr -> 0 <= np_max pr.
Proof. intros (H1 & H2 & _). unfold np_max. destruct (Qge_bool _ _); assumption. Qed.

Lemma np_min_nonneg pr : proper_node pr -> 0 <= np_min pr.
Proof. intros (H1 & H2 & _). unfold np_min. destruct (Qle_bool _ _); assumption. Qed.

(** Without a tie the two branches carry the two labels. *)
Lemma branches_cover pr k : proper_node pr ->
  k = astype_bool (np_argmax pr) \/ k = astype_bool (np_argmin pr).
Proof.
  intros (_ & _ & Hne). unfold np_argmax, np_argmin.
  destruct (Qge_bool (fst pr) (snd pr)) eqn:E1, (Qle_bool (fst pr) (snd pr)) eqn:E2;
    cbn; destruct k; auto; exfalso.
  - apply Hne. apply Qge_bool_iff in E1. apply Qle_bool_iff in E2.
    apply Qle_antisym; assumption.
  - destruct (Qlt_le_dec (snd pr) (fst pr)) as [H|H].
    + apply Qlt_le_weak, Qge_bool_iff in H. congruence.
    + apply Qle_bool_iff in H. congruence.
Qed.

Lemma in_all_paths_S d path :
  In path (all_paths (S d)) ->
  exists k rest, path = k :: rest /\ In rest (all_paths d).
Proof.
  cbn [all_paths]. intros H. apply in_app_or in H.
  destruct H as [H|H]; apply in_map_iff in H; destruct H as (rest & <- & Hr); eauto.
Qed.

(** With threshold 0, non-negative probabilities and no tie, every label
    vector is reached, with its replayed score. *)
Lemma eps0_reaches_all_paths l eps ests :
  eps == 0 ->
  (forall e, In e ests -> forall row, proper_node (e row)) ->
  forall xr path0 p, 0 <= p ->
  forall path, In path (all_paths (List.length ests)) ->
    In (path0 ++ path,
        replay_row l ests (List.length path0) xr (path0 ++ path) p)
       (leaves l eps ests xr path0 p).
Proof.
  intros He. induction ests as [|e ests IH]; intros Hp xr path0 p Hnn path Hin.
  - cbn in Hin. destruct Hin as [<-|[]]. rewrite app_nil_r. cbn. left. reflexivity.
  - cbn [List.length] in Hin. apply in_all_paths_S in Hin.
    destruct Hin as (k & rest & -> & Hrest).
    cbn [leaves replay_row]. cbv zeta.
    rewrite firstn_prefix, nth_middle_default.
    set (pr := e (xr ++ map Q_of_bool path0)).
    assert (Hpr : proper_node pr) by (apply Hp; left; reflexivity).
    assert (IH' : forall p', 0 <= p' ->
              In (path0 ++ k :: rest,
                  replay_row l ests (S (List.length path0)) xr (path0 ++ k :: rest) p')
                 (leaves l eps ests xr (path0 ++ [k]) p')).
    { intros p' Hp'.
      pose proof (IH (fun e' H => Hp e' (or_intror H)) xr (path0 ++ [k]) p' Hp'
                     rest Hrest) as H.
      rewrite length_app, Nat.add_1_r, <- app_assoc in H. exact H. }
    apply in_or_app.
    destruct (branches_cover pr k Hpr) as [Hk|Hk].
    + left. rewrite Hk at 3. rewrite take_argmax. rewrite <- Hk.
      apply IH'.
      apply new_score1_nonneg; [exact Hnn|apply np_max_nonneg, Hpr].
    + right.
      assert (Hmin : 0 <= new_score1 l p (np_min pr))
        by (apply new_score1_nonneg; [exact Hnn|apply np_min_nonneg, Hpr]).
      assert (Hc : Qge_bool (new_score1 l p (np_min pr)) eps = true)
        by (apply Qge_bool_iff; rewrite He; exact Hmin).
      rewrite Hc. rewrite Hk at 3. rewrite take_argmin. rewrite <- Hk.
      apply IH'. exact Hmin.
Qed.

(** With threshold 0 and no tie, the score stored for a row is at least the
    score of every label vector (replayed from the score 1 the search starts
    with). *)
Lemma eps0_without_ties_is_optimal
    (self : EpsilonApproximationInferer) (xr : list Q) (path : list bool) :
  epsilon self == 0 ->
  (forall e, In e (estimators_ (cc self)) -> forall row, proper_node (e row)) ->
  In path (all_paths (List.length (estimators_ (cc self)))) ->
  replay_row (loss (base self)) (estimators_ (cc self)) 0 xr path 1
  <= snd (row_best self xr).
Proof.
  intros He Hp Hin.
  pose proof (eps0_reaches_all_paths (loss (base self)) (epsilon self)
                (estimators_ (cc self)) He Hp xr [] 1) as H.
  cbn [List.length app] in H.
  unfold row_best.
  apply (best_of_ge _ _ (path, _)). apply H; [|exact Hin].
  discriminate.
Qed.

(** ** The depth-3 scenario *)

(** C4 as stated fails: with epsilon = 0.5 the prediction on the scenario is
    not the path [1,1,1]. *)
Lemma scenario_half_is_not_all_ones :
  prediction_of (Eps_infer (scenario "exact_match" (1 # 2)) scenario_x)
  <> Some [[true; true; true]].
Proof. vm_compute. discriminate. Qed.

(** C4, amended: on the scenario under exact match, epsilon = 0.5 expands
    the arg-max branch only (one estimator call per level, a single complete
    path is reached) and returns the greedy path, which is [0,0,0]. *)
Theorem scenario_half_is_greedy :
  let self := scenario "exact_match" (1 # 2) in
  prediction_of (Eps_infer self scenario_x) = Some [[false; false; false]] /\
  map (fun xr => greedy_path (estimators_ (cc self)) xr []) scenario_x =
    [[false; false; false]] /\
  map (fun xr => map fst (row_leaves self xr)) scenario_x =
    [[[false; false; false]]] /\
  n_nodes (Eps_search self scenario_x) = 3%nat /\
  (exists n, nodes_of (Eps_infer self scenario_x) = Some n /\ n == 3).
Proof.
  cbv zeta. repeat split; try (vm_compute; reflexivity).
  eexists. split; [vm_compute; reflexivity|reflexivity].
Qed.

(** C5 as stated fails: with epsilon = 0 the mean visited-node count on the
    scenario is not 14. *)
Lemma scenario_zero_count_is_not_14 :
  match nodes_of (Eps_infer (scenario "exact_match" 0) scenario_x) with
  | Some n => ~ n == 14
  | None => False
  end.
Proof. vm_compute. discriminate. Qed.

(** C5, amended: on the scenario under exact match, epsilon = 0 returns the
    path [0,0,0]; its internal score is 0.378 and no complete path has a
    higher product of probabilities; the reported mean visited-node count is
    7 = 2^0 + 2^1 + 2^2, one per estimator call on the row, and it is the
    number of calls counted by [__dfs] divided by the batch size. *)
Theorem scenario_zero_result :
  let self := scenario "exact_match" 0 in
  prediction_of (Eps_infer self scenario_x) = Some [[false; false; false]] /\
  (exists s, best_p (Eps_search self scenario_x) = [s] /\ s == 378 # 1000) /\
  Forall (fun path => path_score (base self) [1 # 2; 3] path <= 378 # 1000)
         (all_paths 3) /\
  n_nodes (Eps_search self scenario_x) = (2 ^ 0 + 2 ^ 1 + 2 ^ 2)%nat /\
  (exists n, nodes_of (Eps_infer self scenario_x) = Some n /\ n == 7).
Proof.
  cbv zeta. split; [vm_compute; reflexivity|].
  split; [eexists; split; [vm_compute; reflexivity|reflexivity]|].
  split; [|split; [vm_compute; reflexivity|]].
  - repeat constructor; vm_compute; discriminate.
  - eexists. split; [vm_compute; reflexivity|reflexivity].
Qed.

(** ** Failing inputs *)

(** C2: on a chain whose nodes 0 and 1|0 are ties, epsilon = 0 reaches the
    path [0,0] four times and no other, and returns it with score 1/4,
    although the path [1,1] has score 9/20. *)
Theorem epsilon_zero_misses_optimum_on_ties :
  prediction_of (Eps_infer tie_inferer scenario_x) = Some [[false; false]] /\
  map fst (row_leaves tie_inferer [1 # 2; 3]) =
    [[false; false]; [false; false]; [false; false]; [false; false]] /\
  path_score (base tie_inferer) [1 # 2; 3] [false; false] == 1 # 4 /\
  path_score (base tie_inferer) [1 # 2; 3] [true; true] == 9 # 20 /\
  In [true; true] (all_paths 2).
Proof.
  repeat split; try (vm_compute; reflexivity).
  cbn. auto.
Qed.

(** C6: under the Hamming loss on the scenario, the mean of the scores the
    search stores for its returned paths is 3.2, while the reward replayed by
    [infer] for the same paths is 2.2: the search starts its sums at 1. *)
Theorem hamming_internal_score_differs_from_replay :
  let self := scenario "hamming" (1 # 2) in
  mean (best_p (Eps_search self scenario_x)) == 32 # 10 /\
  (exists pred n reward,
     infer self scenario_x = Ok (pred, n, reward) /\ reward == 22 # 10) /\
  ~ mean (best_p (Eps_search self scenario_x)) ==
    __calculate_reward (base self) scenario_x (best_pred (Eps_search self scenario_x)).
Proof.
  cbv zeta. split; [vm_compute; reflexivity|]. split.
  - do 3 eexists. split; [vm_compute; reflexivity|reflexivity].
  - vm_compute. discriminate.
Qed.

(** * Further properties of the code *)

From Stdlib Require Import ZArith Lqa Permutation.

(** ** The label order *)

Lemma nth_set_nth_eq {A} (i : nat) (k d : A) (row : list A) :
  (i < List.length row)%nat -> nth i (set_nth i k row) d = k.
Proof.
  revert i; induction row as [|a row IH]; intros [|i] H; cbn in *; try lia.
  - reflexivity.
  - apply IH. lia.
Qed.

Lemma nth_set_nth_neq {A} (i j : nat) (k d : A) (row : list A) :
  i <> j -> nth j (set_nth i k row) d = nth j row d.
Proof.
  revert i j; induction row as [|a row IH]; intros [|i] [|j] H; cbn;
    try reflexivity; try congruence.
  apply IH. congruence.
Qed.

Lemma write_all_length ps : forall inv,
  List.length (write_all ps inv) = List.length inv.
Proof.
  induction ps as [|[j o] ps IH]; intros inv; cbn; [reflexivity|].
  unfold write_all in IH. rewrite IH. apply length_set_nth.
Qed.

Lemma write_all_untouched ps : forall inv o,
  ~ In o (map snd ps) -> nth o (write_all ps inv) 0%nat = nth o inv 0%nat.
Proof.
  induction ps as [|[j' o'] ps IH]; intros inv o Hn; cbn; [reflexivity|].
  cbn in Hn. unfold write_all in IH. rewrite IH by tauto.
  apply nth_set_nth_neq. intros ->. tauto.
Qed.

Lemma write_all_written ps : forall inv j o,
  NoDup (map snd ps) -> In (j, o) ps -> (o < List.length inv)%nat ->
  nth o (write_all ps inv) 0%nat = j.
Proof.
  induction ps as [|[j' o'] ps IH]; intros inv j o Hnd Hin Ho; [destruct Hin|].
  cbn in Hnd. inversion Hnd as [|? ? Hni Hnd']; subst.
  cbn [write_all fold_left fst snd].
  destruct Hin as [Heq|Hin].
  - injection Heq as -> ->.
    change (nth o (write_all ps (set_nth o j inv)) 0%nat = j).
    rewrite write_all_untouched by exact Hni.
    apply nth_set_nth_eq, Ho.
  - apply IH; [exact Hnd'|exact Hin|]. rewrite length_set_nth. exact Ho.
Qed.

Lemma combine_seq_snd {A} (l : list A) : forall s,
  map snd (combine (seq s (List.length l)) l) = l.
Proof.
  induction l as [|a l IH]; intros s; cbn; [reflexivity|]. rewrite IH. reflexivity.
Qed.

Lemma combine_seq_in (l : list nat) : forall s j,
  (j < List.length l)%nat ->
  In ((s + j)%nat, nth j l 0%nat) (combine (seq s (List.length l)) l).
Proof.
  induction l as [|a l IH]; intros s j Hj; cbn in Hj; [lia|].
  destruct j as [|j]; cbn.
  - left. f_equal. lia.
  - right. replace (s + S j)%nat with (S s + j)%nat by lia. apply IH. lia.
Qed.

Lemma inv_order_length order : List.length (inv_order order) = List.length order.
Proof.
  unfold inv_order. change (fold_left _ ?ps ?i) with (write_all ps i).
  rewrite write_all_length. apply repeat_length.
Qed.

Lemma is_order_nth order j :
  is_order order -> (j < List.length order)%nat ->
  (nth j order 0 < List.length order)%nat.
Proof.
  intros [_ Hb] Hj. rewrite Forall_forall in Hb. apply Hb, nth_In, Hj.
Qed.

(** [inv_order] undoes [order_]. *)
Lemma inv_order_left order j :
  is_order order -> (j < List.length order)%nat ->
  nth (nth j order 0%nat) (inv_order order) 0%nat = j.
Proof.
  intros Ho Hj. unfold inv_order.
  change (fold_left _ ?ps ?i) with (write_all ps i).
  apply write_all_written.
  - rewrite combine_seq_snd. apply Ho.
  - apply (combine_seq_in order 0 j Hj).
  - rewrite repeat_length. apply is_order_nth; assumption.
Qed.

Lemma is_order_onto order o :
  is_order order -> (o < List.length order)%nat ->
  exists j, (j < List.length order)%nat /\ nth j order 0%nat = o.
Proof.
  intros [Hnd Hb] Ho.
  assert (Hp : Permutation order (seq 0 (List.length order))).
  { apply NoDup_Permutation_bis; [exact Hnd|rewrite length_seq; lia|].
    intros a Ha. rewrite Forall_forall in Hb. apply in_seq. specialize (Hb a Ha). lia. }
  assert (Hin : In o order).
  { apply (Permutation_in _ (Permutation_sym Hp)). apply in_seq. lia. }
  destruct (In_nth _ _ 0%nat Hin) as (j & Hj & Hnth). eauto.
Qed.

Lemma inv_order_right order o :
  is_order order -> (o < List.length order)%nat ->
  nth (nth o (inv_order order) 0%nat) order 0%nat = o /\
  (nth o (inv_order order) 0 < List.length order)%nat.
Proof.
  intros Ho Hlt. destruct (is_order_onto order o Ho Hlt) as (j & Hj & <-).
  rewrite inv_order_left by assumption. auto.
Qed.

Lemma inv_order_is_order order : is_order order -> is_order (inv_order order).
Proof.
  intros Ho. split.
  - apply (NoDup_nth _ 0%nat). intros a b Ha Hb Heq.
    rewrite inv_order_length in Ha, Hb.
    destruct (inv_order_right order a Ho Ha) as (Ea & _).
    destruct (inv_order_right order b Ho Hb) as (Eb & _).
    rewrite <- Ea, <- Eb, Heq. reflexivity.
  - apply Forall_forall. intros v Hv.
    destruct (In_nth _ _ 0%nat Hv) as (o & Hlt & <-).
    rewrite inv_order_length in *.
    apply (inv_order_right order o Ho Hlt).
Qed.

(** The inverse of the inverse order is the order. *)
Lemma inv_order_involutive order :
  is_order order -> inv_order (inv_order order) = order.
Proof.
  intros Ho. apply (nth_ext _ _ 0%nat 0%nat).
  - rewrite !inv_order_length. reflexivity.
  - intros k Hk. rewrite !inv_order_length in Hk.
    pose proof (inv_order_left order k Ho Hk) as E.
    rewrite <- E at 1.
    apply inv_order_left.
    + apply inv_order_is_order, Ho.
    + rewrite inv_order_length. apply is_order_nth; assumption.
Qed.

Lemma nth_map_in {A B} (f : A -> B) (l : list A) k d d' :
  (k < List.length l)%nat -> nth k (map f l) d' = f (nth k l d).
Proof.
  intros H. rewrite (nth_indep _ d' (f d)) by (rewrite length_map; exact H).
  apply map_nth.
Qed.

Lemma reorder_row_nth order (row : list bool) c :
  is_order order -> (c < List.length order)%nat ->
  nth (nth c order 0%nat)
      (map (fun j => nth j row false) (inv_order order)) false
  = nth c row false.
Proof.
  intros Ho Hc.
  rewrite (nth_map_in _ _ _ 0%nat)
    by (rewrite inv_order_length; apply is_order_nth; assumption).
  rewrite inv_order_left by assumption. reflexivity.
Qed.

(** X1: [__fix_order] keeps the shape of the prediction and moves the
    column of chain position [c] to the column of the label [order_[c]]. *)
Theorem fix_order_places_labels (self : BaseInferer) (pred : list (list bool))
    (r c : nat) (row : list bool) :
  is_order (order_ (_cc self)) ->
  nth_error pred r = Some row ->
  (c < List.length (order_ (_cc self)))%nat ->
  List.length (__fix_order self pred) = List.length pred /\
  exists row',
    nth_error (__fix_order self pred) r = Some row' /\
    List.length row' = List.length (order_ (_cc self)) /\
    nth (nth c (order_ (_cc self)) 0%nat) row' false = nth c row false.
Proof.
  intros Ho Hr Hc. unfold __fix_order. split; [apply length_map|].
  eexists. split; [rewrite nth_error_map, Hr; reflexivity|].
  split; [rewrite length_map; apply inv_order_length|].
  apply reorder_row_nth; assumption.
Qed.

Lemma reorder_round_trip order (row : list bool) :
  is_order order -> List.length row = List.length order ->
  map (fun j => nth j (map (fun j' => nth j' row false) (inv_order order)) false)
      order = row.
Proof.
  intros Ho Hl. apply (nth_ext _ _ false false).
  - rewrite length_map. symmetry. exact Hl.
  - intros c Hc. rewrite length_map in Hc.
    rewrite (nth_map_in _ _ _ 0%nat) by exact Hc.
    apply reorder_row_nth; assumption.
Qed.

(** X2: reordering with the order and then with its inverse gives the
    prediction back. *)
Theorem fix_order_round_trip (self self' : BaseInferer) (pred : list (list bool)) :
  is_order (order_ (_cc self)) ->
  order_ (_cc self') = inv_order (order_ (_cc self)) ->
  Forall (fun row => List.length row = List.length (order_ (_cc self))) pred ->
  __fix_order self' (__fix_order self pred) = pred.
Proof.
  intros Ho Ho' Hrows. unfold __fix_order.
  rewrite Ho', inv_order_involutive by exact Ho.
  rewrite map_map. rewrite <- (map_id pred) at 2.
  apply map_ext_in. intros row Hin. rewrite Forall_forall in Hrows.
  apply reorder_round_trip; [exact Ho|apply Hrows, Hin].
Qed.

Lemma is_order_seq d : is_order (seq 0 d).
Proof.
  split; [apply seq_NoDup|]. apply Forall_forall. intros o Ho.
  apply in_seq in Ho. rewrite length_seq. lia.
Qed.

Lemma inv_order_seq d : inv_order (seq 0 d) = seq 0 d.
Proof.
  apply (nth_ext _ _ 0%nat 0%nat).
  - apply inv_order_length.
  - intros k Hk. rewrite inv_order_length, length_seq in Hk.
    pose proof (inv_order_left (seq 0 d) k (is_order_seq d)) as E.
    rewrite length_seq in E. specialize (E Hk).
    rewrite seq_nth in * by exact Hk. cbn in *. exact E.
Qed.

(** X3: when the chain is in label order, [__fix_order] changes nothing. *)
Theorem fix_order_identity (self : BaseInferer) (pred : list (list bool)) (d : nat) :
  order_ (_cc self) = seq 0 d ->
  Forall (fun row => List.length row = d) pred ->
  __fix_order self pred = pred.
Proof.
  intros Ho Hrows. unfold __fix_order. rewrite Ho, inv_order_seq.
  rewrite <- (map_id pred) at 2.
  apply map_ext_in. intros row Hin. rewrite Forall_forall in Hrows.
  specialize (Hrows row Hin).
  apply (nth_ext _ _ false false).
  - rewrite length_map, length_seq. symmetry. exact Hrows.
  - intros c Hc. rewrite length_map, length_seq in Hc.
    rewrite (nth_map_in _ _ _ 0%nat) by (rewrite length_seq; exact Hc).
    rewrite seq_nth by exact Hc. reflexivity.
Qed.

(** ** Bounds on scores and rewards *)

Lemma Q_of_nat_S n : Q_of_nat (S n) == Q_of_nat n + 1.
Proof.
  unfold Q_of_nat. rewrite Nat2Z.inj_succ. unfold Z.succ.
  rewrite inject_Z_plus. reflexivity.
Qed.

Lemma take_unit pr k : unit_node pr -> 0 <= take pr k /\ take pr k <= 1.
Proof. intros [H1 H2]. destruct k; cbn; assumption. Qed.

(** One step of the score: under exact match a probability can only
    lower a non-negative score; under the Hamming loss it raises the score
    by at most 1. *)
Lemma new_score_step_bounds (l : string) (past q : Q) :
  0 <= past -> 0 <= q -> q <= 1 ->
  (l = "exact_match"%string ->
     0 <= new_score1 l past q /\ new_score1 l past q <= past) /\
  (l <> "exact_match"%string ->
     past <= new_score1 l past q /\ new_score1 l past q <= past + 1).
Proof.
  intros Hp H0 H1. unfold new_score1. split.
  - intros ->. cbn [String.eqb Ascii.eqb Bool.eqb]. split.
    + apply Qmult_le_0_compat; assumption.
    + rewrite <- (Qmult_1_r past) at 2.
      rewrite (Qmult_comm past q), (Qmult_comm past 1).
      apply Qmult_le_compat_r; assumption.
  - intros Hne. apply String.eqb_neq in Hne. rewrite Hne. split; lra.
Qed.

Lemma replay_row_exact_bounds ests : forall i xr path r,
  (forall e, In e ests -> forall row, unit_node (e row)) ->
  0 <= r -> r <= 1 ->
  0 <= replay_row "exact_match" ests i xr path r /\
  replay_row "exact_match" ests i xr path r <= 1.
Proof.
  induction ests as [|e ests IH]; intros i xr path r Hu H0 H1; cbn [replay_row].
  - split; assumption.
  - cbv zeta.
    destruct (take_unit (e (xr ++ map Q_of_bool (firstn i path)))
                (astype_int (nth i path false))) as [Ht0 Ht1];
      [apply Hu; left; reflexivity|].
    destruct (new_score_step_bounds "exact_match" r _ H0 Ht0 Ht1) as [[Ha Hb] _];
      [reflexivity|].
    apply IH.
    + intros e' He'. apply Hu. right. exact He'.
    + exact Ha.
    + lra.
Qed.

Lemma replay_row_sum_bounds l ests : forall i xr path r,
  l <> "exact_match"%string ->
  (forall e, In e ests -> forall row, unit_node (e row)) ->
  r <= replay_row l ests i xr path r /\
  replay_row l ests i xr path r <= r + Q_of_nat (List.length ests).
Proof.
  intros i xr path r Hl. revert i xr path r.
  induction ests as [|e ests IH]; intros i xr path r Hu; cbn [replay_row].
  - cbn [List.length]. change (Q_of_nat 0) with 0. split; lra.
  - cbv zeta.
    destruct (take_unit (e (xr ++ map Q_of_bool (firstn i path)))
                (astype_int (nth i path false))) as [Ht0 Ht1];
      [apply Hu; left; reflexivity|].
    set (t := take _ _) in *.
    assert (Hs : new_score1 l r t = r + t).
    { unfold new_score1. apply String.eqb_neq in Hl. rewrite Hl. reflexivity. }
    rewrite Hs.
    destruct (IH (S i) xr path (r + t) (fun e' He' => Hu e' (or_intror He')))
      as [Ha Hb].
    cbn [List.length]. rewrite Q_of_nat_S. split; lra.
Qed.

Lemma Qsum_from (l : list Q) : forall a, fold_left Qplus l a == a + Qsum l.
Proof.
  unfold Qsum. induction l as [|q l IH]; intros a; cbn.
  - lra.
  - rewrite IH, (IH (0 + q)). lra.
Qed.

Lemma Qsum_cons q l : Qsum (q :: l) == q + Qsum l.
Proof. unfold Qsum at 1. cbn. rewrite Qsum_from. lra. Qed.

Lemma Qsum_bounds (lo hi : Q) (l : list Q) :
  Forall (fun q => lo <= q /\ q <= hi) l ->
  Q_of_nat (List.length l) * lo <= Qsum l /\
  Qsum l <= Q_of_nat (List.length l) * hi.
Proof.
  induction 1 as [|q l [Hq1 Hq2] _ [IH1 IH2]].
  - cbn [List.length]. change (Q_of_nat 0) with 0. unfold Qsum. cbn. split; lra.
  - rewrite Qsum_cons.
    cbn [List.length]. rewrite Q_of_nat_S. split; lra.
Qed.

Lemma mean_bounds (lo hi : Q) (l : list Q) :
  l <> [] ->
  Forall (fun q => lo <= q /\ q <= hi) l ->
  lo <= mean l /\ mean l <= hi.
Proof.
  intros Hne Hall. destruct (Qsum_bounds lo hi l Hall) as [H1 H2].
  assert (Hpos : 0 < Q_of_nat (List.length l)).
  { apply Q_of_nat_pos. destruct l; [congruence|cbn; lia]. }
  unfold mean. fold (Q_of_nat (List.length l)).
  split.
  - apply Qle_shift_div_l; [exact Hpos|]. lra.
  - apply Qle_shift_div_r; [exact Hpos|]. lra.
Qed.

Lemma rows3_Forall {A B C D} (f : A -> B -> C -> D) (P : D -> Prop) :
  forall x y z,
    (forall a b c, In c z -> P (f a b c)) -> Forall P (rows3 f x y z).
Proof.
  induction x as [|a x IH]; intros [|b y] [|c z] H; cbn; try constructor.
  - apply H. left. reflexivity.
  - apply IH. intros a' b' c' Hc. apply H. right. exact Hc.
Qed.

(** X4: the replayed reward of a non-empty batch lies in [0, 1] under exact
    match and in [0, depth] under the Hamming loss, when the estimators answer
    with numbers in [0, 1]. *)
Theorem calculate_reward_bounds (self : BaseInferer)
    (x : list (list Q)) (pred : list (list bool)) :
  x <> [] ->
  List.length pred = List.length x ->
  (forall e, In e (estimators_ (_cc self)) -> forall row, unit_node (e row)) ->
  0 <= __calculate_reward self x pred /\
  (loss self = "exact_match"%string -> __calculate_reward self x pred <= 1) /\
  (loss self <> "exact_match"%string ->
     __calculate_reward self x pred
     <= Q_of_nat (List.length (estimators_ (_cc self)))).
Proof.
  intros Hx Hp Hu. unfold __calculate_reward.
  destruct (String.eqb (loss self) "exact_match") eqn:El.
  - apply String.eqb_eq in El. rewrite El.
    rewrite reward_loop_rows by (rewrite ?repeat_length; auto).
    assert (Hall : Forall (fun q => 0 <= q /\ q <= 1)
              (rows3 (fun xr p r =>
                        replay_row "exact_match" (estimators_ (_cc self)) 0 xr p r)
                     x pred (repeat 1 (List.length x)))).
    { apply rows3_Forall. intros a b c Hc. apply repeat_spec in Hc. subst c.
      apply replay_row_exact_bounds; [exact Hu|lra|lra]. }
    assert (Hne : rows3 (fun xr p r =>
                        replay_row "exact_match" (estimators_ (_cc self)) 0 xr p r)
                     x pred (repeat 1 (List.length x)) <> []).
    { destruct x as [|xr x]; [congruence|]. destruct pred; [discriminate|].
      cbn. discriminate. }
    destruct (mean_bounds 0 1 _ Hne Hall) as [H0 H1].
    split; [exact H0|]. split; [intros _; exact H1|]. intros Hc. congruence.
  - apply String.eqb_neq in El.
    rewrite reward_loop_rows by (rewrite ?repeat_length; auto).
    set (d := Q_of_nat (List.length (estimators_ (_cc self)))).
    assert (Hall : Forall (fun q => 0 <= q /\ q <= d)
              (rows3 (fun xr p r =>
                        replay_row (loss self) (estimators_ (_cc self)) 0 xr p r)
                     x pred (repeat 0 (List.length x)))).
    { apply rows3_Forall. intros a b c Hc. apply repeat_spec in Hc. subst c.
      destruct (replay_row_sum_bounds (loss self) (estimators_ (_cc self))
                  0 a b 0 El Hu) as [Ha Hb].
      cbv beta. split; [exact Ha|]. unfold d. rewrite Qplus_0_l in Hb. exact Hb. }
    assert (Hne : rows3 (fun xr p r =>
                        replay_row (loss self) (estimators_ (_cc self)) 0 xr p r)
                     x pred (repeat 0 (List.length x)) <> []).
    { destruct x as [|xr x]; [congruence|]. destruct pred; [discriminate|].
      cbn. discriminate. }
    destruct (mean_bounds 0 d _ Hne Hall) as [H0 H1].
    split; [exact H0|]. split; [intros Hc; congruence|]. intros _. exact H1.
Qed.

(** ** Shape of the prediction and number of visited nodes *)

Lemma leaves_length l eps ests : forall xr path p lf,
  In lf (leaves l eps ests xr path p) ->
  List.length (fst lf) = (List.length path + List.length ests)%nat.
Proof.
  induction ests as [|e ests IH]; intros xr path p lf Hin.
  - cbn in Hin. destruct Hin as [<-|[]]. cbn. lia.
  - cbn [leaves] in Hin. apply in_app_or in Hin.
    destruct Hin as [Hin|Hin].
    + rewrite (IH _ _ _ _ Hin), length_app. cbn. lia.
    + destruct (Qge_bool _ eps); [|destruct Hin].
      rewrite (IH _ _ _ _ Hin), length_app. cbn. lia.
Qed.

Lemma best_of_in_or_start ls b : best_of ls b = b \/ In (best_of ls b) ls.
Proof.
  destruct (best_of_last_improving ls b) as [[H _]|[k (Hk & _)]].
  - left. exact H.
  - right. eapply nth_error_In, Hk.
Qed.

Lemma row_best_length self xr :
  List.length (fst (row_best self xr)) = List.length (estimators_ (cc self)).
Proof.
  unfold row_best.
  destruct (best_of_in_or_start (row_leaves self xr)
              (repeat false (List.length (estimators_ (cc self))), 0)) as [->|Hin].
  - apply repeat_length.
  - apply leaves_length in Hin. exact Hin.
Qed.

Lemma visited_bounds l eps ests : forall xr path p,
  (List.length ests <= visited l eps ests xr path p)%nat /\
  (visited l eps ests xr path p <= 2 ^ List.length ests - 1)%nat.
Proof.
  induction ests as [|e ests IH]; intros xr path p; cbn [visited List.length].
  - cbn. lia.
  - cbv zeta.
    set (pr := e (xr ++ map Q_of_bool path)).
    destruct (IH xr (path ++ [astype_bool (np_argmax pr)])
                 (new_score1 l p (np_max pr))) as [H1 H2].
    destruct (IH xr (path ++ [astype_bool (np_argmin pr)])
                 (new_score1 l p (np_min pr))) as [H3 H4].
    assert (Hpow : (1 <= 2 ^ List.length ests)%nat)
      by (apply Nat.neq_0_lt_0, Nat.pow_nonzero; lia).
    rewrite Nat.pow_succ_r'.
    destruct (Qge_bool _ eps); lia.
Qed.

Lemma sum_nat_bounds {A} (f : A -> nat) (lo hi : nat) (l : list A) :
  (forall a, lo <= f a <= hi)%nat ->
  (List.length l * lo <= sum_nat (map f l) <= List.length l * hi)%nat.
Proof.
  intros H. induction l as [|a l IH]; cbn; [lia|].
  specialize (H a). unfold sum_nat in IH. lia.
Qed.

Lemma Q_of_nat_mult a b : Q_of_nat (a * b) == Q_of_nat a * Q_of_nat b.
Proof.
  unfold Q_of_nat. rewrite Nat2Z.inj_mul, inject_Z_mult. reflexivity.
Qed.

Lemma mean_of_constant (n c : nat) :
  (0 < n)%nat -> Q_of_nat (n * c) / Q_of_nat n == Q_of_nat c.
Proof.
  intros Hn. rewrite Q_of_nat_mult.
  pose proof (Q_of_nat_pos n Hn) as Hpos.
  field. intros H0. rewrite H0 in Hpos. apply (Qlt_irrefl 0 Hpos).
Qed.

(** X5: for a non-empty batch [_infer] returns one row per input row, each
    with one label per estimator, and a mean visited-node count between the
    depth (one call per level) and 2^depth - 1 (every node of the tree). *)
Theorem Eps_infer_shape_and_count (self : EpsilonApproximationInferer)
    (x : list (list Q)) :
  x <> [] ->
  exists pred n,
    Eps_infer self x = Ok (pred, n) /\
    List.length pred = List.length x /\
    Forall (fun row => List.length row = List.length (estimators_ (cc self))) pred /\
    Q_of_nat (List.length (estimators_ (cc self))) <= n /\
    n <= Q_of_nat (2 ^ List.length (estimators_ (cc self)) - 1).
Proof.
  intros Hx. rewrite Eps_infer_rows by exact Hx.
  do 2 eexists. split; [reflexivity|].
  assert (Hn : (0 < List.length x)%nat) by (destruct x; [congruence|cbn; lia]).
  split; [apply length_map|].
  split.
  - apply Forall_forall. intros row Hin. apply in_map_iff in Hin.
    destruct Hin as (xr & <- & _). apply row_best_length.
  - destruct (sum_nat_bounds (row_visited self)
                (List.length (estimators_ (cc self)))
                (2 ^ List.length (estimators_ (cc self)) - 1) x) as [Hlo Hhi].
    { intros xr. apply visited_bounds. }
    split.
    + rewrite <- (mean_of_constant (List.length x) _ Hn).
      apply mean_nodes_mono; assumption.
    + rewrite <- (mean_of_constant (List.length x)
                    (2 ^ List.length (estimators_ (cc self)) - 1) Hn).
      apply mean_nodes_mono; assumption.
Qed.


(** ** When the threshold never prunes *)

Lemma nonneg_min pr : nonneg_node pr -> 0 <= np_min pr.
Proof. intros [H1 H2]. unfold np_min. destruct (Qle_bool _ _); assumption. Qed.

Lemma nonneg_max pr : nonneg_node pr -> 0 <= np_max pr.
Proof. intros [H1 H2]. unfold np_max. destruct (Qge_bool _ _); assumption. Qed.

Lemma keeps_above_zero l : keeps_above l 0.
Proof. intros p q Hp Hq. apply new_score1_nonneg; assumption. Qed.

Lemma keeps_above_one_sum l : l <> "exact_match"%string -> keeps_above l 1.
Proof.
  intros Hl p q Hp Hq. unfold new_score1.
  apply String.eqb_neq in Hl. rewrite Hl. lra.
Qed.

Lemma unpruned_visited l eps lo ests :
  eps <= lo -> keeps_above l lo ->
  (forall e, In e ests -> forall row, nonneg_node (e row)) ->
  forall xr path p, lo <= p ->
    visited l eps ests xr path p = (2 ^ List.length ests - 1)%nat.
Proof.
  intros He Hk. induction ests as [|e ests IH]; intros Hn xr path p Hp.
  - reflexivity.
  - cbn [visited List.length]. cbv zeta.
    set (pr := e (xr ++ map Q_of_bool path)).
    assert (Hpr : nonneg_node pr) by (apply Hn; left; reflexivity).
    assert (Hmin : lo <= new_score1 l p (np_min pr))
      by (apply Hk; [exact Hp|apply nonneg_min, Hpr]).
    assert (Hmax : lo <= new_score1 l p (np_max pr))
      by (apply Hk; [exact Hp|apply nonneg_max, Hpr]).
    assert (Hc : Qge_bool (new_score1 l p (np_min pr)) eps = true)
      by (apply Qge_bool_iff; lra).
    rewrite Hc.
    rewrite !IH by (try (intros e' He'; apply Hn; right; exact He'); assumption).
    assert (Hpow : (1 <= 2 ^ List.length ests)%nat)
      by (apply Nat.neq_0_lt_0, Nat.pow_nonzero; lia).
    rewrite Nat.pow_succ_r'. lia.
Qed.

Lemma unpruned_leaves l eps1 eps2 lo ests :
  eps1 <= lo -> eps2 <= lo -> keeps_above l lo ->
  (forall e, In e ests -> forall row, nonneg_node (e row)) ->
  forall xr path p, lo <= p ->
    leaves l eps1 ests xr path p = leaves l eps2 ests xr path p.
Proof.
  intros He1 He2 Hk. induction ests as [|e ests IH]; intros Hn xr path p Hp.
  - reflexivity.
  - cbn [leaves]. cbv zeta.
    set (pr := e (xr ++ map Q_of_bool path)).
    assert (Hpr : nonneg_node pr) by (apply Hn; left; reflexivity).
    assert (Hmin : lo <= new_score1 l p (np_min pr))
      by (apply Hk; [exact Hp|apply nonneg_min, Hpr]).
    assert (Hmax : lo <= new_score1 l p (np_max pr))
      by (apply Hk; [exact Hp|apply nonneg_max, Hpr]).
    assert (Hc1 : Qge_bool (new_score1 l p (np_min pr)) eps1 = true)
      by (apply Qge_bool_iff; lra).
    assert (Hc2 : Qge_bool (new_score1 l p (np_min pr)) eps2 = true)
      by (apply Qge_bool_iff; lra).
    rewrite Hc1, Hc2.
    rewrite (IH (fun e' He' => Hn e' (or_intror He')) xr _ _ Hmax).
    rewrite (IH (fun e' He' => Hn e' (or_intror He')) xr _ _ Hmin).
    reflexivity.
Qed.

(** X7: with threshold 0 and non-negative answers, whatever the loss, every
    node of the tree is expanded: the mean visited-node count of a non-empty
    batch is 2^depth - 1. *)
Theorem threshold_zero_visits_whole_tree (self : EpsilonApproximationInferer)
    (x : list (list Q)) :
  x <> [] ->
  epsilon self == 0 ->
  (forall e, In e (estimators_ (cc self)) -> forall row, nonneg_node (e row)) ->
  exists n, nodes_of (Eps_infer self x) = Some n /\
            n == Q_of_nat (2 ^ List.length (estimators_ (cc self)) - 1).
Proof.
  intros Hx He Hn. rewrite Eps_infer_rows by exact Hx. cbn [nodes_of].
  eexists. split; [reflexivity|].
  assert (Hlen : (0 < List.length x)%nat) by (destruct x; [congruence|cbn; lia]).
  assert (Hs : sum_nat (map (row_visited self) x)
               = (List.length x * (2 ^ List.length (estimators_ (cc self)) - 1))%nat).
  { clear Hx Hlen. induction x as [|xr x IH]; [reflexivity|].
    cbn [map sum_nat fold_right List.length]. unfold sum_nat in IH. rewrite IH.
    unfold row_visited.
    rewrite (unpruned_visited (loss (base self)) (epsilon self) 0);
      [| rewrite He; apply Qle_refl | apply keeps_above_zero | exact Hn | lra].
    reflexivity. }
  rewrite Hs. apply mean_of_constant, Hlen.
Qed.

(** X8: under the Hamming loss (any loss other than 'exact_match') the
    threshold has no effect: the search starts its sums at 1, so with
    non-negative answers no branch is pruned for any threshold up to 1; two
    inferers that differ only in such thresholds return the same result, and
    the whole tree is visited. *)
Theorem hamming_threshold_has_no_effect
    (self1 self2 : EpsilonApproximationInferer) (x : list (list Q)) :
  cc self1 = cc self2 ->
  loss (base self1) = loss (base self2) ->
  loss (base self1) <> "exact_match"%string ->
  epsilon self1 <= 1 -> epsilon self2 <= 1 ->
  (forall e, In e (estimators_ (cc self1)) -> forall row, nonneg_node (e row)) ->
  Eps_infer self1 x = Eps_infer self2 x /\
  (x <> [] ->
   exists n, nodes_of (Eps_infer self1 x) = Some n /\
             n == Q_of_nat (2 ^ List.length (estimators_ (cc self1)) - 1)).
Proof.
  intros Hcc Hl Hne He1 He2 Hn.
  assert (Hvis : forall e xr,
            e <= 1 ->
            visited (loss (base self1)) e (estimators_ (cc self1)) xr [] 1
            = (2 ^ List.length (estimators_ (cc self1)) - 1)%nat).
  { intros e xr He.
    apply (unpruned_visited (loss (base self1)) e 1);
      [exact He|apply keeps_above_one_sum, Hne|exact Hn|lra]. }
  split.
  - destruct x as [|xr x]; [reflexivity|].
    rewrite !Eps_infer_rows by discriminate.
    assert (Hb : forall r, row_best self1 r = row_best self2 r).
    { intros r. unfold row_best, row_leaves. rewrite <- Hcc, <- Hl.
      rewrite (unpruned_leaves (loss (base self1)) (epsilon self1) (epsilon self2) 1);
        [reflexivity|exact He1|exact He2|apply keeps_above_one_sum, Hne|exact Hn|lra]. }
    assert (Hv : forall r, row_visited self1 r = row_visited self2 r).
    { intros r. unfold row_visited. rewrite <- Hcc, <- Hl.
      rewrite !Hvis by assumption. reflexivity. }
    rewrite (map_ext _ _ Hv).
    rewrite (map_ext (fun r => fst (row_best self1 r))
                     (fun r => fst (row_best self2 r)))
      by (intros r; rewrite Hb; reflexivity).
    reflexivity.
  - intros Hx. rewrite Eps_infer_rows by exact Hx. cbn [nodes_of].
    eexists. split; [reflexivity|].
    assert (Hlen : (0 < List.length x)%nat) by (destruct x; [congruence|cbn; lia]).
    assert (Hs : sum_nat (map (row_visited self1) x)
                 = (List.length x * (2 ^ List.length (estimators_ (cc self1)) - 1))%nat).
    { clear Hx Hlen. induction x as [|xr x IH]; [reflexivity|].
      cbn [map sum_nat fold_right List.length]. unfold sum_nat in IH. rewrite IH.
      unfold row_visited. rewrite Hvis by exact He1. reflexivity. }
    rewrite Hs. apply mean_of_constant, Hlen.
Qed.

(** ** The search and the greedy path *)

(** The first complete path reached is the greedy one. *)
Lemma greedy_leaf_reached l eps ests : forall xr path p,
  exists s, In (greedy_path ests xr path, s) (leaves l eps ests xr path p).
Proof.
  induction ests as [|e ests IH]; intros xr path p.
  - exists p. left. reflexivity.
  - cbn [leaves greedy_path]. cbv zeta.
    destruct (IH xr (path ++ [astype_bool (np_argmax (e (xr ++ map Q_of_bool path)))])
                 (new_score1 l p (np_max (e (xr ++ map Q_of_bool path)))))
      as (s & Hs).
    exists s. apply in_or_app. left. exact Hs.
Qed.

(** whatever the threshold and the loss, the score stored for a row is
    at least the score of the greedy path of that row. *)
Lemma search_is_at_least_greedy (self : EpsilonApproximationInferer)
    (x : list (list Q)) (r : nat) (xr : list Q) :
  nth_error x r = Some xr ->
  exists s,
    nth_error (best_p (Eps_search self x)) r = Some s /\
    replay_row (loss (base self)) (estimators_ (cc self)) 0 xr
      (greedy_path (estimators_ (cc self)) xr []) 1 <= s.
Proof.
  intros Hr. rewrite Eps_search_rows. cbn [best_p].
  eexists. split; [rewrite nth_error_map, Hr; reflexivity|].
  destruct (greedy_leaf_reached (loss (base self)) (epsilon self)
              (estimators_ (cc self)) xr [] 1) as (s & Hs).
  destruct (leaves_replay _ _ _ _ _ _ _ Hs) as (_ & Hrep).
  cbn [fst snd List.length] in Hrep. rewrite Hrep.
  unfold row_best, row_leaves. apply (best_of_ge _ _ _ Hs).
Qed.

Lemma prob_node_min_half pr : prob_node pr -> 0 <= np_min pr /\ np_min pr <= 1 # 2.
Proof.
  intros (H0 & H1 & Hs). unfold np_min.
  destruct (Qle_bool (fst pr) (snd pr)) eqn:E.
  - apply Qle_bool_iff in E. split; lra.
  - destruct (Qlt_le_dec (snd pr) (fst pr)) as [H|H].
    + split; lra.
    + apply Qle_bool_iff in H. congruence.
Qed.

Lemma prob_node_max pr : prob_node pr -> 1 # 2 <= np_max pr /\ np_max pr <= 1.
Proof.
  intros (H0 & H1 & Hs). unfold np_max.
  destruct (Qge_bool (fst pr) (snd pr)) eqn:E.
  - apply Qge_bool_iff in E. split; lra.
  - destruct (Qlt_le_dec (fst pr) (snd pr)) as [H|H].
    + split; lra.
    + apply Qge_bool_iff in H. congruence.
Qed.

Lemma prob_node_min_tie pr : prob_node pr -> 1 # 2 <= np_min pr -> fst pr == snd pr.
Proof.
  intros (H0 & H1 & Hs). unfold np_min.
  destruct (Qle_bool (fst pr) (snd pr)) eqn:E.
  - apply Qle_bool_iff in E. intros H. lra.
  - destruct (Qlt_le_dec (snd pr) (fst pr)) as [H|H].
    + intros H'. lra.
    + apply Qle_bool_iff in H. congruence.
Qed.

Lemma mult_le_unit p q : 0 <= p -> p <= 1 -> 0 <= q -> 0 <= p * q /\ p * q <= q.
Proof.
  intros H0 H1 Hq. split.
  - apply Qmult_le_0_compat; assumption.
  - rewrite <- (Qmult_1_l q) at 2. apply Qmult_le_compat_r; assumption.
Qed.

(** With a threshold of 1/2 or more, under exact match, a second branch is
    only expanded at a tie, where it repeats the first. *)
Lemma leaves_all_greedy eps ests :
  1 # 2 <= eps ->
  (forall e, In e ests -> forall row, prob_node (e row)) ->
  forall xr path p lf, 0 <= p -> p <= 1 ->
    In lf (leaves "exact_match" eps ests xr path p) ->
    fst lf = greedy_path ests xr path.
Proof.
  intros He. induction ests as [|e ests IH]; intros Hn xr path p lf H0 H1 Hin.
  - cbn in Hin. destruct Hin as [<-|[]]. reflexivity.
  - cbn [leaves greedy_path] in *. cbv zeta in Hin.
    set (pr := e (xr ++ map Q_of_bool path)) in *.
    assert (Hpr : prob_node pr) by (apply Hn; left; reflexivity).
    destruct (prob_node_min_half pr Hpr) as [Hm0 Hm1].
    destruct (prob_node_max pr Hpr) as [HM0 HM1].
    assert (IH' := IH (fun e' He' => Hn e' (or_intror He')) xr).
    apply in_app_or in Hin. destruct Hin as [Hin|Hin].
    + assert (HMn : 0 <= np_max pr) by lra.
      destruct (mult_le_unit p (np_max pr) H0 H1 HMn) as [Hq0 Hq1].
      apply (IH' _ (new_score1 "exact_match" p (np_max pr))); [| |exact Hin];
        change (new_score1 "exact_match" p (np_max pr)) with (p * np_max pr); lra.
    + destruct (Qge_bool (new_score1 "exact_match" p (np_min pr)) eps) eqn:Hc;
        [|destruct Hin].
      apply Qge_bool_iff in Hc.
      change (new_score1 "exact_match" p (np_min pr)) with (p * np_min pr) in Hc.
      destruct (mult_le_unit p (np_min pr) H0 H1 Hm0) as [Hq0 Hq1].
      assert (Htie : fst pr == snd pr) by (apply prob_node_min_tie; [exact Hpr|lra]).
      destruct (tie_labels pr Htie) as (Ea & Eb & _).
      rewrite Ea. rewrite Eb in Hin.
      apply (IH' _ (new_score1 "exact_match" p (np_min pr))); [| |exact Hin];
        change (new_score1 "exact_match" p (np_min pr)) with (p * np_min pr); lra.
Qed.


(** ** What the threshold guarantees *)

Lemma replay_row_exact_le ests : forall i xr path r,
  (forall e, In e ests -> forall row, unit_node (e row)) ->
  0 <= r ->
  0 <= replay_row "exact_match" ests i xr path r /\
  replay_row "exact_match" ests i xr path r <= r.
Proof.
  induction ests as [|e ests IH]; intros i xr path r Hu H0; cbn [replay_row].
  - split; lra.
  - cbv zeta.
    destruct (take_unit (e (xr ++ map Q_of_bool (firstn i path)))
                (astype_int (nth i path false))) as [Ht0 Ht1];
      [apply Hu; left; reflexivity|].
    destruct (new_score_step_bounds "exact_match" r _ H0 Ht0 Ht1) as [[Ha Hb] _];
      [reflexivity|].
    destruct (IH (S i) xr path _ (fun e' He' => Hu e' (or_intror He')) Ha) as [Hc Hd].
    split; lra.
Qed.

(** Under exact match without ties, every label vector whose score reaches
    the threshold is reached by the search. *)
Lemma above_threshold_reached eps ests :
  (forall e, In e ests -> forall row, unit_node (e row)) ->
  (forall e, In e ests -> forall row, proper_node (e row)) ->
  forall xr path0 p, 0 <= p ->
  forall path, In path (all_paths (List.length ests)) ->
    eps <= replay_row "exact_match" ests (List.length path0) xr (path0 ++ path) p ->
    In (path0 ++ path,
        replay_row "exact_match" ests (List.length path0) xr (path0 ++ path) p)
       (leaves "exact_match" eps ests xr path0 p).
Proof.
  induction ests as [|e ests IH]; intros Hu Hp xr path0 p Hnn path Hin Hge.
  - cbn in Hin. destruct Hin as [<-|[]]. rewrite app_nil_r. cbn. left. reflexivity.
  - cbn [List.length] in Hin. apply in_all_paths_S in Hin.
    destruct Hin as (k & rest & -> & Hrest).
    cbn [leaves replay_row] in *. cbv zeta in *.
    rewrite firstn_prefix, nth_middle_default in *.
    set (pr := e (xr ++ map Q_of_bool path0)) in *.
    assert (Hpr : proper_node pr) by (apply Hp; left; reflexivity).
    assert (Hur : unit_node pr) by (apply Hu; left; reflexivity).
    assert (IH' : forall p', 0 <= p' ->
              eps <= replay_row "exact_match" ests (S (List.length path0)) xr
                       (path0 ++ k :: rest) p' ->
              In (path0 ++ k :: rest,
                  replay_row "exact_match" ests (S (List.length path0)) xr
                    (path0 ++ k :: rest) p')
                 (leaves "exact_match" eps ests xr (path0 ++ [k]) p')).
    { intros p' Hp' Hge'.
      pose proof (IH (fun e' H => Hu e' (or_intror H))
                     (fun e' H => Hp e' (or_intror H)) xr (path0 ++ [k]) p' Hp'
                     rest Hrest) as H.
      rewrite length_app, Nat.add_1_r, <- app_assoc in H. apply H. exact Hge'. }
    apply in_or_app.
    destruct (branches_cover pr k Hpr) as [Hk|Hk].
    + left. rewrite Hk at 3. rewrite Hk in Hge at 2.
      rewrite take_argmax in *. rewrite <- Hk.
      apply IH'; [|exact Hge].
      apply new_score1_nonneg; [exact Hnn|apply np_max_nonneg, Hpr].
    + right. rewrite Hk at 3. rewrite Hk in Hge at 2.
      rewrite take_argmin in *.
      assert (Hmin : 0 <= new_score1 "exact_match" p (np_min pr))
        by (apply new_score1_nonneg; [exact Hnn|apply np_min_nonneg, Hpr]).
      destruct (replay_row_exact_le ests (S (List.length path0)) xr
                  (path0 ++ k :: rest) _ (fun e' H => Hu e' (or_intror H)) Hmin)
        as [_ Hle].
      assert (Hc : Qge_bool (new_score1 "exact_match" p (np_min pr)) eps = true)
        by (apply Qge_bool_iff; lra).
      rewrite Hc. rewrite <- Hk.
      apply IH'; [exact Hmin|exact Hge].
Qed.

(** the guarantee of the threshold.  Under exact match, when the
    answers lie in [0, 1] and no node is a tie, the score stored for a row is
    at least the score of every label vector whose score reaches epsilon. *)
Lemma threshold_guarantee (self : EpsilonApproximationInferer)
    (x : list (list Q)) (r : nat) (xr : list Q) (path : list bool) :
  loss (base self) = "exact_match"%string ->
  (forall e, In e (estimators_ (cc self)) -> forall row, unit_node (e row)) ->
  (forall e, In e (estimators_ (cc self)) -> forall row, proper_node (e row)) ->
  nth_error x r = Some xr ->
  In path (all_paths (List.length (estimators_ (cc self)))) ->
  epsilon self <= replay_row "exact_match" (estimators_ (cc self)) 0 xr path 1 ->
  exists s,
    nth_error (best_p (Eps_search self x)) r = Some s /\
    replay_row "exact_match" (estimators_ (cc self)) 0 xr path 1 <= s.
Proof.
  intros Hl Hu Hp Hr Hin Hge. rewrite Eps_search_rows. cbn [best_p].
  eexists. split; [rewrite nth_error_map, Hr; reflexivity|].
  pose proof (above_threshold_reached (epsilon self) (estimators_ (cc self))
                Hu Hp xr [] 1) as H.
  cbn [List.length app] in H.
  unfold row_best, row_leaves. rewrite Hl.
  apply (best_of_ge _ _ (path, _)). apply H; [lra|exact Hin|exact Hge].
Qed.

(** ** The stored score and the threshold *)

Lemma leaves_sub l eps1 eps2 ests : eps1 <= eps2 ->
  forall xr path p lf,
    In lf (leaves l eps2 ests xr path p) -> In lf (leaves l eps1 ests xr path p).
Proof.
  intros He. induction ests as [|e ests IH]; intros xr path p lf Hin.
  - exact Hin.
  - cbn [leaves] in *. cbv zeta in *.
    apply in_app_or in Hin. apply in_or_app.
    destruct Hin as [Hin|Hin]; [left; apply IH, Hin|].
    destruct (Qge_bool _ eps2) eqn:E2; [|destruct Hin].
    right. rewrite (Qge_bool_weaken _ _ _ He E2). apply IH, Hin.
Qed.

(** lowering the threshold never lowers the score stored for a row. *)
Lemma stored_score_antitone_in_epsilon
    (self1 self2 : EpsilonApproximationInferer) (x : list (list Q))
    (r : nat) (xr : list Q) :
  cc self1 = cc self2 ->
  loss (base self1) = loss (base self2) ->
  epsilon self1 <= epsilon self2 ->
  nth_error x r = Some xr ->
  exists s1 s2,
    nth_error (best_p (Eps_search self1 x)) r = Some s1 /\
    nth_error (best_p (Eps_search self2 x)) r = Some s2 /\
    s2 <= s1.
Proof.
  intros Hcc Hl He Hr. rewrite !Eps_search_rows. cbn [best_p].
  do 2 eexists.
  split; [rewrite nth_error_map, Hr; reflexivity|].
  split; [rewrite nth_error_map, Hr; reflexivity|].
  unfold row_best, row_leaves. rewrite Hcc, Hl.
  set (b0 := (repeat false (List.length (estimators_ (cc self2))), 0)).
  set (ls1 := leaves _ (epsilon self1) _ _ _ _).
  set (ls2 := leaves _ (epsilon self2) _ _ _ _).
  destruct (best_of_in_or_start ls2 b0) as [->|Hin].
  - apply (best_of_mono [] ls1).
  - apply best_of_ge. apply (leaves_sub _ _ _ _ He), Hin.
Qed.

(** ** Rows outside the mask *)

(** X10: a call of [__dfs] on arrays of matching shapes keeps the shapes, and
    leaves alone every row that its mask does not select: the row of
    [cur_pred], the stored best path and the stored best score. *)
Theorem dfs_respects_mask l eps ests : forall x i cur_pred cur_p mask st,
  List.length cur_pred = List.length x ->
  List.length mask = List.length x ->
  List.length (best_pred st) = List.length x ->
  List.length (best_p st) = List.length x ->
  List.length cur_p = count_nonzero mask ->
  let r := __dfs l eps ests i x cur_pred cur_p mask st in
  List.length (fst r) = List.length x /\
  List.length (best_pred (snd r)) = List.length x /\
  List.length (best_p (snd r)) = List.length x /\
  forall k, nth_error mask k = Some false ->
    nth_error (fst r) k = nth_error cur_pred k /\
    nth_error (best_pred (snd r)) k = nth_error (best_pred st) k /\
    nth_error (best_p (snd r)) k = nth_error (best_p st) k.
Proof.
  induction x as [|xr x IH];
    intros i cur_pred cur_p mask [bps bqs n] Hcp Hm Hbp Hbq Hp; cbv zeta.
  - destruct cur_pred, mask, bps, bqs; try discriminate.
    rewrite dfs_mask_none by reflexivity. cbn. repeat split; auto.
  - destruct cur_pred as [|cp cps], mask as [|m mask], bps as [|bp bps],
             bqs as [|bq bqs]; try discriminate.
    cbn [best_pred best_p List.length] in *.
    injection Hcp as Hcp. injection Hm as Hm. injection Hbp as Hbp.
    injection Hbq as Hbq.
    destruct m.
    + rewrite count_nonzero_true in Hp.
      destruct cur_p as [|p ps]; [discriminate|]. injection Hp as Hp.
      rewrite dfs_cons_true. cbv zeta.
      specialize (IH i cps ps mask {| best_pred := bps; best_p := bqs; n_nodes := n |}
                     Hcp Hm Hbp Hbq Hp).
      cbv zeta in IH. destruct IH as (L1 & L2 & L3 & Hk).
      unfold cons_row. cbn [fst snd best_pred best_p List.length].
      repeat split; try (f_equal; assumption).
      all: destruct k as [|k]; [discriminate|]; cbn [nth_error] in *;
        apply (Hk k H).
    + rewrite count_nonzero_false in Hp.
      rewrite dfs_cons_false.
      specialize (IH i cps cur_p mask {| best_pred := bps; best_p := bqs; n_nodes := n |}
                     Hcp Hm Hbp Hbq Hp).
      cbv zeta in IH. destruct IH as (L1 & L2 & L3 & Hk).
      unfold cons_row. cbn [fst snd best_pred best_p List.length].
      repeat split; try (f_equal; assumption).
      all: destruct k as [|k]; [reflexivity|]; cbn [nth_error] in *;
        apply (Hk k H).
Qed.

(** ** predict: methods and keyword arguments *)

Lemma getitem_missing kw k : ~ In k (map fst kw) -> getitem kw k = Raise KeyError.
Proof.
  induction kw as [|[k' v] kw IH]; intros Hn; [reflexivity|].
  cbn in *. destruct (String.eqb k k') eqn:E.
  - apply String.eqb_eq in E. subst. tauto.
  - apply IH. tauto.
Qed.

(** X11: for a method name that is none of the six that [predict] knows, it
    raises its own exception, whatever the keyword arguments; no inferer is
    constructed. *)
Theorem predict_unknown_method_raises sk ex bm mc c x m rn kw :
  ~ In m ["greedy"; "exhaustive_search"; "epsilon_approximation"; "beam_search";
          "monte_carlo"; "efficient_monte_carlo"]%string ->
  predict sk ex bm mc c x m rn kw =
  Raise (Exception "This inference method does not exist.").
Proof.
  intros Hn. cbn [In] in Hn.
  unfold predict, make_inferer.
  repeat match goal with
  | |- context [String.eqb m ?s] =>
      let E := fresh "E" in
      destruct (String.eqb m s) eqn:E;
        [apply String.eqb_eq in E; exfalso; intuition congruence|]
  end.
  reflexivity.
Qed.

(** X12: a method that takes a loss raises KeyError when the keyword
    arguments hold no loss, before the inferer is constructed. *)
Theorem predict_missing_loss_raises sk ex bm mc c x m rn kw :
  In m ["exhaustive_search"; "beam_search"; "monte_carlo";
        "efficient_monte_carlo"]%string ->
  ~ In "loss"%string (map fst kw) ->
  predict sk ex bm mc c x m rn kw = Raise KeyError.
Proof.
  intros Hm Hk. unfold predict, make_inferer.
  rewrite (getitem_missing kw "loss" Hk).
  cbn [In] in Hm.
  destruct Hm as [<-|[<-|[<-|[<-|[]]]]]; reflexivity.
Qed.

(** ** accuracy *)

Lemma filter_length_le {A} (f : A -> bool) (l : list A) :
  (List.length (filter f l) <= List.length l)%nat.
Proof. induction l as [|a l IH]; cbn; [lia|]. destruct (f a); cbn; lia. Qed.

Lemma accuracy_row_bounds t p : 0 <= accuracy_row t p /\ accuracy_row t p <= 1.
Proof.
  unfold accuracy_row. cbv zeta.
  destruct (_ && _); [split; [discriminate|apply Qle_refl]|].
  set (a := where_true t). set (b := where_true p).
  assert (Hle : (List.length (set_inter a b) <= List.length (set_union a b))%nat).
  { unfold set_inter, set_union. rewrite length_app.
    pose proof (filter_length_le (fun i => existsb (Nat.eqb i) b) a). lia. }
  destruct (List.length (set_union a b)) as [|u] eqn:Eu.
  - assert (List.length (set_inter a b) = 0%nat) as -> by lia.
    split; [discriminate|discriminate].
  - assert (Hu : 0 < Q_of_nat (S u)) by (apply Q_of_nat_pos; lia).
    split.
    + apply Qle_shift_div_l; [exact Hu|]. rewrite Qmult_0_l.
      change 0 with (Q_of_nat 0). apply Q_of_nat_le. lia.
    + apply Qle_shift_div_r; [exact Hu|]. rewrite Qmult_1_l.
      apply Q_of_nat_le. exact Hle.
Qed.

Lemma acc_list_ok y_test : forall y_pred i,
  (i + List.length y_test <= List.length y_pred)%nat ->
  exists l, acc_list y_test y_pred i = Ok l /\
            List.length l = List.length y_test /\
            Forall (fun q => 0 <= q /\ q <= 1) l.
Proof.
  induction y_test as [|t rest IH]; intros y_pred i Hlen; cbn [acc_list].
  - exists []. auto.
  - cbn [List.length] in Hlen.
    destruct (nth_error y_pred i) as [p|] eqn:E;
      [|apply nth_error_None in E; lia].
    destruct (IH y_pred (S i)) as (l & -> & Hl & Hall); [lia|].
    cbn [bind]. eexists. split; [reflexivity|]. split; [cbn; lia|].
    constructor; [apply accuracy_row_bounds|exact Hall].
Qed.

Lemma acc_list_short y_test : forall y_pred i,
  (i <= List.length y_pred)%nat ->
  (List.length y_pred < i + List.length y_test)%nat ->
  acc_list y_test y_pred i = Raise (Exception "IndexError").
Proof.
  induction y_test as [|t rest IH]; intros y_pred i Hi Hlen; cbn [acc_list].
  - cbn in Hlen. lia.
  - cbn [List.length] in Hlen.
    destruct (nth_error y_pred i) as [p|] eqn:E; [|reflexivity].
    assert (i < List.length y_pred)%nat by (apply nth_error_Some; congruence).
    rewrite IH by lia. reflexivity.
Qed.

(** X13: [accuracy] returns a number in [0, 1] when the greedy prediction
    has a row for every row of a non-empty [test_y], and raises an IndexError
    when the prediction has fewer rows. *)
Theorem accuracy_in_unit_interval sk ex bm mc c test_x test_y :
  test_y <> [] ->
  ((List.length test_y <= List.length (sk c test_x))%nat ->
   exists a, accuracy sk ex bm mc c test_x test_y = Ok a /\ 0 <= a /\ a <= 1) /\
  ((List.length (sk c test_x) < List.length test_y)%nat ->
   accuracy sk ex bm mc c test_x test_y = Raise (Exception "IndexError")).
Proof.
  intros Hne. unfold accuracy, predict.
  cbn [String.eqb Ascii.eqb Bool.eqb bind]. split.
  - intros Hlen.
    destruct (acc_list_ok test_y (sk c test_x) 0) as (l & -> & Hl & Hall); [lia|].
    cbn [bind]. eexists. split; [reflexivity|].
    apply mean_bounds; [|exact Hall].
    destruct l; [destruct test_y; [congruence|discriminate]|discriminate].
  - intros Hlen. rewrite acc_list_short by lia. reflexivity.
Qed.

Lemma existsb_self (a : list nat) i : In i a -> existsb (Nat.eqb i) a = true.
Proof.
  intros H. apply existsb_exists. exists i. split; [exact H|apply Nat.eqb_refl].
Qed.

Lemma filter_keeps_all {A} (f : A -> bool) (l : list A) :
  Forall (fun a => f a = true) l -> filter f l = l.
Proof.
  induction 1 as [|a l Ha _ IH]; cbn; [reflexivity|]. rewrite Ha, IH. reflexivity.
Qed.

Lemma filter_drops_all {A} (f : A -> bool) (l : list A) :
  Forall (fun a => f a = false) l -> filter f l = [].
Proof.
  induction 1 as [|a l Ha _ IH]; cbn; [reflexivity|]. rewrite Ha. exact IH.
Qed.

Lemma accuracy_row_same t : accuracy_row t t == 1.
Proof.
  unfold accuracy_row. cbv zeta. set (a := where_true t).
  destruct (Nat.eqb (List.length a) 0) eqn:E; cbn [andb]; [reflexivity|].
  apply Nat.eqb_neq in E.
  unfold set_inter, set_union.
  rewrite (filter_keeps_all _ a)
    by (apply Forall_forall; intros i Hi; apply existsb_self, Hi).
  rewrite (filter_drops_all (fun i => negb (existsb (Nat.eqb i) a)) a)
    by (apply Forall_forall; intros i Hi; rewrite existsb_self by exact Hi;
        reflexivity).
  rewrite app_nil_r.
  assert (Hpos : 0 < Q_of_nat (List.length a)) by (apply Q_of_nat_pos; lia).
  field. intros H0. rewrite H0 in Hpos. apply (Qlt_irrefl 0 Hpos).
Qed.

Lemma acc_list_same rest : forall pre,
  acc_list rest (pre ++ rest) (List.length pre) =
  Ok (map (fun t => accuracy_row t t) rest).
Proof.
  induction rest as [|t rest IH]; intros pre; cbn [acc_list map]; [reflexivity|].
  rewrite nth_error_app2 by lia. rewrite Nat.sub_diag. cbn [nth_error].
  specialize (IH (pre ++ [t])).
  rewrite <- app_assoc, length_app, Nat.add_1_r in IH. cbn [app] in IH.
  rewrite IH. reflexivity.
Qed.

(** X14: when the greedy prediction equals the non-empty [test_y],
    [accuracy] is 1. *)
Theorem accuracy_of_perfect_prediction sk ex bm mc c test_x test_y :
  test_y <> [] ->
  sk c test_x = test_y ->
  exists a, accuracy sk ex bm mc c test_x test_y = Ok a /\ a == 1.
Proof.
  intros Hne Hsk. unfold accuracy, predict.
  cbn [String.eqb Ascii.eqb Bool.eqb bind]. rewrite Hsk.
  pose proof (acc_list_same test_y []) as Hacc. cbn [app List.length] in Hacc.
  rewrite Hacc. cbn [bind].
  eexists. split; [reflexivity|].
  destruct (mean_bounds 1 1 (map (fun t => accuracy_row t t) test_y)) as [H1 H2].
  - destruct test_y; [congruence|discriminate].
  - apply Forall_forall. intros q Hq. apply in_map_iff in Hq.
    destruct Hq as (t & <- & _). rewrite accuracy_row_same. split; apply Qle_refl.
  - apply Qle_antisym; assumption.
Qed.

(** ** Reward and optimum of the returned paths *)


(** ** Instances *)

Lemma coin1_cases r : coin1 r = (1 # 5, 4 # 5) \/ coin1 r = (3 # 5, 2 # 5).
Proof. unfold coin1. destruct (Qle_bool _ _); auto. Qed.

Ltac fair_nodes :=
  let e := fresh "e" in let H := fresh "H" in let row := fresh "row" in
  intros e H row; cbn in H;
  destruct H as [<-|[<-|[]]];
    [unfold coin0|destruct (coin1_cases row) as [-> | ->]];
    vm_compute; intuition discriminate.

Lemma fair_prob_nodes l eps e :
  In e (estimators_ (cc (fair l eps))) -> forall row, prob_node (e row).
Proof. revert e. fair_nodes. Qed.

Lemma fair_proper_nodes l eps e :
  In e (estimators_ (cc (fair l eps))) -> forall row, proper_node (e row).
Proof. revert e. fair_nodes. Qed.

Lemma fair_unit_nodes l eps e :
  In e (estimators_ (cc (fair l eps))) -> forall row, unit_node (e row).
Proof. revert e. fair_nodes. Qed.

Lemma fair_nonneg_nodes l eps e :
  In e (estimators_ (cc (fair l eps))) -> forall row, nonneg_node (e row).
Proof. revert e. fair_nodes. Qed.

Lemma fair_positive_max l eps e :
  In e (estimators_ (cc (fair l eps))) -> forall row, 0 < np_max (e row).
Proof. revert e. fair_nodes. Qed.

Lemma fair_order : is_order (order_ fair_chain).
Proof.
  split.
  - repeat constructor; cbn; intuition discriminate.
  - repeat constructor.
Qed.

(** ** The returned path and the replayed reward *)

Lemma new_score1_compat l p p' q : p == p' -> new_score1 l p q == new_score1 l p' q.
Proof.
  intros H. unfold new_score1. destruct (String.eqb l "exact_match"); rewrite H;
    reflexivity.
Qed.

Lemma replay_row_compat l ests : forall i xr path r r',
  r == r' -> replay_row l ests i xr path r == replay_row l ests i xr path r'.
Proof.
  induction ests as [|e ests IH]; intros i xr path r r' H; cbn [replay_row].
  - exact H.
  - cbv zeta. apply IH, new_score1_compat, H.
Qed.

Lemma replay_row_sum_shift l ests : l <> "exact_match"%string ->
  forall i xr path r c,
    replay_row l ests i xr path (r + c) == replay_row l ests i xr path r + c.
Proof.
  intros Hl. apply String.eqb_neq in Hl.
  induction ests as [|e ests IH]; intros i xr path r c; cbn [replay_row].
  - reflexivity.
  - cbv zeta. set (t := take _ _).
    rewrite <- IH. apply replay_row_compat.
    unfold new_score1. rewrite Hl. ring.
Qed.

Lemma mean_single q : mean [q] == q.
Proof. unfold mean, Qsum. cbn. field. Qed.

(** The score of a path under [__calculate_reward] and the score the search
    accumulates for it, from 1. *)
Lemma path_score_exact (b : BaseInferer) xr path :
  loss b = "exact_match"%string ->
  path_score b xr path == replay_row "exact_match" (estimators_ (_cc b)) 0 xr path 1.
Proof.
  intros Hl. unfold path_score, __calculate_reward. rewrite Hl.
  cbn [String.eqb Ascii.eqb Bool.eqb List.length repeat].
  rewrite reward_loop_rows by reflexivity. cbn [rows3]. apply mean_single.
Qed.

Lemma path_score_sum (b : BaseInferer) xr path :
  loss b <> "exact_match"%string ->
  replay_row (loss b) (estimators_ (_cc b)) 0 xr path 1 == path_score b xr path + 1.
Proof.
  intros Hl. unfold path_score, __calculate_reward.
  pose proof Hl as Hl'. apply String.eqb_neq in Hl'. rewrite Hl'.
  cbn [List.length repeat].
  rewrite reward_loop_rows by reflexivity. cbn [rows3].
  rewrite mean_single, <- (replay_row_sum_shift _ _ Hl).
  apply replay_row_compat. ring.
Qed.

(** The order of the accumulated scores is the order of the replayed
    rewards. *)
Lemma accumulated_order (b : BaseInferer) xr p1 p2 :
  replay_row (loss b) (estimators_ (_cc b)) 0 xr p1 1
  <= replay_row (loss b) (estimators_ (_cc b)) 0 xr p2 1 ->
  path_score b xr p1 <= path_score b xr p2.
Proof.
  destruct (String.eqb (loss b) "exact_match") eqn:E.
  - apply String.eqb_eq in E. rewrite !(path_score_exact b) by exact E.
    rewrite E. auto.
  - apply String.eqb_neq in E. rewrite !(path_score_sum b) by exact E. lra.
Qed.

Lemma first_leaf_positive_any l eps ests :
  (forall e, In e ests -> forall row, 0 < np_max (e row)) ->
  forall xr path p, 0 < p ->
    exists lf rest, leaves l eps ests xr path p = lf :: rest /\ 0 < snd lf.
Proof.
  induction ests as [|e ests IH]; intros Hpos xr path p Hp.
  - exists (path, p), []. split; [reflexivity|exact Hp].
  - cbn [leaves].
    assert (Hm : 0 < np_max (e (xr ++ map Q_of_bool path)))
      by (apply Hpos; left; reflexivity).
    destruct (IH (fun e' H => Hpos e' (or_intror H)) xr
                 (path ++ [astype_bool (np_argmax (e (xr ++ map Q_of_bool path)))])
                 (new_score1 l p (np_max (e (xr ++ map Q_of_bool path)))))
      as (lf & rest & Heq & Hlf).
    { unfold new_score1. destruct (String.eqb l "exact_match").
      - apply Qmult_lt_0_compat; assumption.
      - lra. }
    rewrite Heq. cbn [app]. eauto.
Qed.

(** When every node gives its likelier branch a positive probability, the
    pair stored for a row is a complete path of the search with the score
    accumulated for it. *)
Lemma stored_is_replay (self : EpsilonApproximationInferer) xr :
  (forall e, In e (estimators_ (cc self)) -> forall row, 0 < np_max (e row)) ->
  In (row_best self xr) (row_leaves self xr) /\
  replay_row (loss (base self)) (estimators_ (cc self)) 0 xr
    (fst (row_best self xr)) 1 = snd (row_best self xr).
Proof.
  intros Hpos.
  destruct (first_leaf_positive_any (loss (base self)) (epsilon self)
              (estimators_ (cc self)) Hpos xr [] 1) as (lf0 & rest & Heq & Hlf0);
    [reflexivity|].
  assert (Hin : In (row_best self xr) (row_leaves self xr)).
  { unfold row_best. apply best_of_is_leaf with lf0 rest; [exact Heq|exact Hlf0]. }
  split; [exact Hin|].
  unfold row_leaves in Hin.
  destruct (leaves_replay _ _ _ _ _ _ _ Hin) as (_ & Hrep). exact Hrep.
Qed.

Lemma proper_node_max_pos pr : proper_node pr -> 0 < np_max pr.
Proof.
  intros (H0 & H1 & Hne). unfold np_max.
  destruct (Qge_bool (fst pr) (snd pr)) eqn:E.
  - apply Qge_bool_iff in E.
    destruct (Qlt_le_dec 0 (fst pr)) as [H|H]; [exact H|].
    exfalso. apply Hne. lra.
  - destruct (Qlt_le_dec (fst pr) (snd pr)) as [H|H]; [lra|].
    apply Qge_bool_iff in H. congruence.
Qed.


(** X17: the guarantee of the threshold.  Under exact match, when the
    answers lie in [0, 1] and no node is a tie, the path returned for a row
    has a replayed reward at least that of every label vector whose reward
    reaches epsilon. *)
Theorem returned_path_threshold_guarantee (self : EpsilonApproximationInferer)
    (x : list (list Q)) (r : nat) (xr : list Q) (path : list bool) :
  loss (base self) = "exact_match"%string ->
  estimators_ (_cc (base self)) = estimators_ (cc self) ->
  (forall e, In e (estimators_ (cc self)) -> forall row, unit_node (e row)) ->
  (forall e, In e (estimators_ (cc self)) -> forall row, proper_node (e row)) ->
  nth_error x r = Some xr ->
  In path (all_paths (List.length (estimators_ (cc self)))) ->
  epsilon self <= path_score (base self) xr path ->
  exists pred n row,
    Eps_infer self x = Ok (pred, n) /\
    nth_error pred r = Some row /\
    path_score (base self) xr path <= path_score (base self) xr row.
Proof.
  intros Hl Hc Hu Hp Hr Hin Hge.
  rewrite Eps_infer_rows by (intros ->; destruct r; discriminate).
  do 3 eexists. split; [reflexivity|].
  split; [rewrite nth_error_map, Hr; reflexivity|].
  apply accumulated_order. rewrite Hc.
  destruct (stored_is_replay self xr
              (fun e He row => proper_node_max_pos _ (Hp e He row))) as (_ & ->).
  rewrite (path_score_exact (base self)), Hc in Hge by exact Hl.
  destruct (threshold_guarantee self [xr] 0 xr path Hl Hu Hp eq_refl Hin Hge)
    as (s & Hs & Hle).
  rewrite Eps_search_rows in Hs. cbn in Hs. injection Hs as <-.
  rewrite Hl. exact Hle.
Qed.



(** ** Batches *)

Lemma sum_nat_app a b : sum_nat (a ++ b) = (sum_nat a + sum_nat b)%nat.
Proof.
  unfold sum_nat. induction a as [|n a IH]; cbn; [reflexivity|]. rewrite IH. lia.
Qed.

Lemma Q_of_nat_plus a b : Q_of_nat (a + b) == Q_of_nat a + Q_of_nat b.
Proof.
  unfold Q_of_nat. rewrite Nat2Z.inj_add, inject_Z_plus. reflexivity.
Qed.

Lemma mean_times_length (s n : nat) :
  (0 < n)%nat -> Q_of_nat s / Q_of_nat n * Q_of_nat n == Q_of_nat s.
Proof.
  intros Hn. pose proof (Q_of_nat_pos n Hn) as Hpos.
  field. intros H0. rewrite H0 in Hpos. apply (Qlt_irrefl 0 Hpos).
Qed.

(** X20: the rows of a batch are searched independently: the prediction of
    two batches put together is the two predictions put together, and the mean
    visited-node count is the mean of the two counts weighted by the batch
    sizes. *)
Theorem Eps_infer_of_concatenation (self : EpsilonApproximationInferer)
    (x1 x2 : list (list Q)) :
  x1 <> [] -> x2 <> [] ->
  exists p1 n1 p2 n2 n,
    Eps_infer self x1 = Ok (p1, n1) /\
    Eps_infer self x2 = Ok (p2, n2) /\
    Eps_infer self (x1 ++ x2) = Ok (p1 ++ p2, n) /\
    n * Q_of_nat (List.length x1 + List.length x2)
    == n1 * Q_of_nat (List.length x1) + n2 * Q_of_nat (List.length x2).
Proof.
  intros H1 H2.
  assert (H12 : x1 ++ x2 <> []) by (destruct x1; [congruence|discriminate]).
  rewrite !Eps_infer_rows by assumption.
  do 5 eexists. split; [reflexivity|]. split; [reflexivity|].
  split; [rewrite !map_app; reflexivity|].
  assert (L1 : (0 < List.length x1)%nat) by (destruct x1; [congruence|cbn; lia]).
  assert (L2 : (0 < List.length x2)%nat) by (destruct x2; [congruence|cbn; lia]).
  rewrite length_app, sum_nat_app.
  rewrite !mean_times_length by lia.
  apply Q_of_nat_plus.
Qed.

Lemma Eps_infer_of_concatenation_witness :
  exists p1 n1 p2 n2 n,
    Eps_infer (fair "exact_match" (1 # 4)) [[1 # 2]] = Ok (p1, n1) /\
    Eps_infer (fair "exact_match" (1 # 4)) [[3]; [0]] = Ok (p2, n2) /\
    Eps_infer (fair "exact_match" (1 # 4)) ([[1 # 2]] ++ [[3]; [0]])
      = Ok (p1 ++ p2, n) /\
    n * Q_of_nat (List.length [[1 # 2]] + List.length [[3]; [0]])
    == n1 * Q_of_nat (List.length [[1 # 2]])
       + n2 * Q_of_nat (List.length [[3]; [0]]).
Proof.
  apply (Eps_infer_of_concatenation (fair "exact_match" (1 # 4))
           [[1 # 2]] [[3]; [0]]); discriminate.
Defined.

Lemma fix_order_places_labels_witness :
  let self := base (fair "exact_match" 0) in
  let pred := [[true; false]] in
  List.length (__fix_order self pred) = List.length pred /\
  exists row',
    nth_error (__fix_order self pred) 0 = Some row' /\
    List.length row' = List.length (order_ (_cc self)) /\
    nth (nth 0 (order_ (_cc self)) 0%nat) row' false = nth 0 [true; false] false.
Proof.
  apply (fix_order_places_labels (base (fair "exact_match" 0))
           [[true; false]] 0 0 [true; false]).
  - exact fair_order.
  - reflexivity.
  - cbn. lia.
Defined.

Lemma fix_order_round_trip_witness :
  __fix_order {| _cc := {| estimators_ := [coin0; coin1];
                           order_ := inv_order [1; 0]%nat |};
                 loss := "exact_match" |}
    (__fix_order (base (fair "exact_match" 0)) [[true; false]; [false; false]])
  = [[true; false]; [false; false]].
Proof.
  apply (fix_order_round_trip (base (fair "exact_match" 0))
           {| _cc := {| estimators_ := [coin0; coin1];
                        order_ := inv_order [1; 0]%nat |};
              loss := "exact_match" |}
           [[true; false]; [false; false]]).
  - exact fair_order.
  - reflexivity.
  - repeat constructor.
Defined.

Lemma fix_order_identity_witness :
  __fix_order (base (scenario "exact_match" 0)) [[true; false; true]]
  = [[true; false; true]].
Proof.
  apply (fix_order_identity (base (scenario "exact_match" 0))
           [[true; false; true]] 3).
  - reflexivity.
  - repeat constructor.
Defined.

Lemma calculate_reward_bounds_witness :
  let self := base (fair "hamming" 0) in
  0 <= __calculate_reward self [[1 # 2]] [[true; false]] /\
  (loss self = "exact_match"%string ->
     __calculate_reward self [[1 # 2]] [[true; false]] <= 1) /\
  (loss self <> "exact_match"%string ->
     __calculate_reward self [[1 # 2]] [[true; false]]
     <= Q_of_nat (List.length (estimators_ (_cc self)))).
Proof.
  apply (calculate_reward_bounds (base (fair "hamming" 0))
           [[1 # 2]] [[true; false]]).
  - discriminate.
  - reflexivity.
  - exact (fair_unit_nodes "hamming" 0).
Defined.


Lemma Eps_infer_shape_and_count_witness :
  exists pred n,
    Eps_infer (fair "exact_match" (1 # 4)) fair_x = Ok (pred, n) /\
    List.length pred = List.length fair_x /\
    Forall (fun row => List.length row = 2%nat) pred /\
    Q_of_nat 2 <= n /\ n <= Q_of_nat (2 ^ 2 - 1).
Proof.
  apply (Eps_infer_shape_and_count (fair "exact_match" (1 # 4)) fair_x).
  discriminate.
Defined.

Lemma threshold_zero_visits_whole_tree_witness :
  exists n, nodes_of (Eps_infer (fair "exact_match" 0) fair_x) = Some n /\
            n == Q_of_nat (2 ^ 2 - 1).
Proof.
  apply (threshold_zero_visits_whole_tree (fair "exact_match" 0) fair_x).
  - discriminate.
  - reflexivity.
  - exact (fair_nonneg_nodes "exact_match" 0).
Defined.

Lemma hamming_threshold_has_no_effect_witness :
  Eps_infer (fair "hamming" 0) fair_x = Eps_infer (fair "hamming" (1 # 2)) fair_x /\
  (fair_x <> [] ->
   exists n, nodes_of (Eps_infer (fair "hamming" 0) fair_x) = Some n /\
             n == Q_of_nat (2 ^ 2 - 1)).
Proof.
  apply (hamming_threshold_has_no_effect
           (fair "hamming" 0) (fair "hamming" (1 # 2)) fair_x).
  - reflexivity.
  - reflexivity.
  - discriminate.
  - discriminate.
  - discriminate.
  - exact (fair_nonneg_nodes "hamming" 0).
Defined.


Lemma dfs_respects_mask_witness :
  let st := {| best_pred := [[false; false]; [true; true]];
               best_p := [0; 1 # 3]; n_nodes := 0 |} in
  let cur_pred := [[false; false]; [false; true]] in
  let r := __dfs "exact_match" (1 # 4) [coin0; coin1] 0 fair_x cur_pred [1]
                 [true; false] st in
  List.length (fst r) = List.length fair_x /\
  List.length (best_pred (snd r)) = List.length fair_x /\
  List.length (best_p (snd r)) = List.length fair_x /\
  forall k, nth_error [true; false] k = Some false ->
    nth_error (fst r) k = nth_error cur_pred k /\
    nth_error (best_pred (snd r)) k = nth_error (best_pred st) k /\
    nth_error (best_p (snd r)) k = nth_error (best_p st) k.
Proof.
  apply (dfs_respects_mask "exact_match" (1 # 4) [coin0; coin1] fair_x 0
           [[false; false]; [false; true]] [1] [true; false]
           {| best_pred := [[false; false]; [true; true]];
              best_p := [0; 1 # 3]; n_nodes := 0 |});
    reflexivity.
Defined.

Lemma predict_unknown_method_raises_witness :
  predict (fun _ _ => []) (fun _ => Raise TypeError) (fun _ => Raise TypeError)
          (fun _ => Raise TypeError) fair_chain fair_x "viterbi" true
          [("loss"%string, VStr "exact_match")]
  = Raise (Exception "This inference method does not exist.").
Proof.
  apply (predict_unknown_method_raises
           (fun _ _ => []) (fun _ => Raise TypeError) (fun _ => Raise TypeError)
           (fun _ => Raise TypeError) fair_chain fair_x "viterbi" true
           [("loss"%string, VStr "exact_match")]).
  cbn. intuition discriminate.
Defined.

Lemma predict_missing_loss_raises_witness :
  predict (fun _ _ => []) (fun _ => Raise TypeError) (fun _ => Raise TypeError)
          (fun _ => Raise TypeError) fair_chain fair_x "beam_search" false
          [("b"%string, VInt 3)]
  = Raise KeyError.
Proof.
  apply (predict_missing_loss_raises
           (fun _ _ => []) (fun _ => Raise TypeError) (fun _ => Raise TypeError)
           (fun _ => Raise TypeError) fair_chain fair_x "beam_search" false
           [("b"%string, VInt 3)]).
  - cbn. auto.
  - cbn. intuition discriminate.
Defined.

Lemma accuracy_in_unit_interval_witness :
  let sk := fun (_ : Chain) (x : list (list Q)) => map (fun _ => [true; false]) x in
  let ex := fun _ : list pyval => @Raise AnyInferer TypeError in
  ((List.length [[true; true]; [false; false]] <= List.length (sk fair_chain fair_x))%nat ->
   exists a, accuracy sk ex ex ex fair_chain fair_x [[true; true]; [false; false]] = Ok a /\
             0 <= a /\ a <= 1) /\
  ((List.length (sk fair_chain fair_x) < List.length [[true; true]; [false; false]])%nat ->
   accuracy sk ex ex ex fair_chain fair_x [[true; true]; [false; false]]
   = Raise (Exception "IndexError")).
Proof.
  apply (accuracy_in_unit_interval
           (fun (_ : Chain) (x : list (list Q)) => map (fun _ => [true; false]) x)
           (fun _ : list pyval => @Raise AnyInferer TypeError)
           (fun _ : list pyval => @Raise AnyInferer TypeError)
           (fun _ : list pyval => @Raise AnyInferer TypeError)
           fair_chain fair_x [[true; true]; [false; false]]).
  discriminate.
Defined.

Lemma accuracy_of_perfect_prediction_witness :
  let sk := fun (_ : Chain) (_ : list (list Q)) => [[true; false]] in
  let ex := fun _ : list pyval => @Raise AnyInferer TypeError in
  exists a, accuracy sk ex ex ex fair_chain fair_x [[true; false]] = Ok a /\ a == 1.
Proof.
  apply (accuracy_of_perfect_prediction
           (fun (_ : Chain) (_ : list (list Q)) => [[true; false]])
           (fun _ : list pyval => @Raise AnyInferer TypeError)
           (fun _ : list pyval => @Raise AnyInferer TypeError)
           (fun _ : list pyval => @Raise AnyInferer TypeError)
           fair_chain fair_x [[true; false]]).
  - discriminate.
  - reflexivity.
Defined.


Lemma returned_path_threshold_guarantee_witness :
  exists pred n row,
    Eps_infer (fair "exact_match" (1 # 4)) fair_x = Ok (pred, n) /\
    nth_error pred 0 = Some row /\
    path_score (base (fair "exact_match" (1 # 4))) [1 # 2] [false; true]
    <= path_score (base (fair "exact_match" (1 # 4))) [1 # 2] row.
Proof.
  apply (returned_path_threshold_guarantee (fair "exact_match" (1 # 4)) fair_x 0
           [1 # 2] [false; true]).
  - reflexivity.
  - reflexivity.
  - exact (fair_unit_nodes "exact_match" (1 # 4)).
  - exact (fair_proper_nodes "exact_match" (1 # 4)).
  - reflexivity.
  - cbn. auto.
  - vm_compute. discriminate.
Defined.


